(** * lab-audio: the Euclidean rhythm generator (cmd/euclidgen)

    A shallow embedding of [bjorklund] and of the timeline mixing code of
    [main] / [generateRhythm] (main.go, examples.go and demo.go carry the
    same copies), together with the properties of the design document that
    can be settled on it.

    Go's [int] is modelled as a 64-bit two's complement integer (the size
    it has on amd64 and arm64): values are mathematical integers of type
    [Z] and every arithmetic operation on data wraps around explicitly.
    Loop counters that are bounded by a slice length are incremented
    without a wrap.  A run that ends in a Go runtime panic is a value
    [Panicked p] of the [result] type; running out of memory in [make] is
    outside the model.  The floating-point synthesis of [synthDrum] is
    not modelled; the mixing code is parametric in the burst it is
    given. *)

From Stdlib Require Import String Ascii.
From Stdlib Require Import ZArith List Lia Bool.
From stdpp Require Import base list.
From Equations Require Import Equations.
From Equations.Prop Require Import Logic.
Import ListNotations.

Local Open Scope Z_scope.

(** ** Runtime panics *)

Inductive panic : Type :=
| DivideByZero      (* integer divide by zero *)
| MakesliceLen      (* makeslice: len out of range *)
| IndexOutOfRange.  (* index out of range *)

Inductive result (A : Type) : Type :=
| Ok (a : A)
| Panicked (p : panic).

Arguments Ok {A} a.
Arguments Panicked {A} p.

Definition bind {A B : Type} (r : result A) (k : A -> result B) : result B :=
  match r with
  | Ok a => k a
  | Panicked p => Panicked p
  end.

Notation "'do' x <- r ; k" := (bind r (fun x => k))
  (at level 10, x name, r at level 100, k at level 200).

(** [len l]: Go's [len], an [int]. *)
Definition len {A : Type} (l : list A) : Z := Z.of_nat (length l).

(** ** Go's [int] *)

Module GoInt.

Definition max_int : Z := 2 ^ 63 - 1.
Definition min_int : Z := - 2 ^ 63.

Definition is_int (z : Z) : Prop := min_int <= z <= max_int.

(** Two's complement reduction into [min_int .. max_int]. *)
Definition wrap (z : Z) : Z := (z + 2 ^ 63) mod 2 ^ 64 - 2 ^ 63.

Definition add (a b : Z) : Z := wrap (a + b).
Definition mul (a b : Z) : Z := wrap (a * b).

(** [a / b]: truncated towards zero; panics when [b] is zero. *)
Definition quot (a b : Z) : result Z :=
  if b =? 0 then Panicked DivideByZero else Ok (wrap (Z.quot a b)).

End GoInt.

(** ** Slices of [int] *)

(** [make([]int, n)]: zero-filled; panics on a negative length. *)
Definition make_ints (n : Z) : result (list Z) :=
  if n <? 0 then Panicked MakesliceLen else Ok (replicate (Z.to_nat n) 0).

(** [s[i]] with its bounds check. *)
Definition index (s : list Z) (i : Z) : result Z :=
  if (0 <=? i) && (i <? len s) then
    match s !! Z.to_nat i with
    | Some x => Ok x
    | None => Panicked IndexOutOfRange
    end
  else Panicked IndexOutOfRange.

(** [s[i] = x] with its bounds check. *)
Definition store (s : list Z) (i : Z) (x : Z) : result (list Z) :=
  if (0 <=? i) && (i <? len s) then Ok (<[Z.to_nat i := x]> s)
  else Panicked IndexOutOfRange.

(** ** bjorklund *)

Module Bjorklund.

(** The group list, [[][]int]. *)
Abbreviation groups := (list (list Z)).

(** [for i := range out { out[i] = 1 }] *)
Definition fill_ones (out : list Z) : list Z := map (fun _ => 1) out.

(** [groups := make([][]int, steps)] followed by the initialisation loop:
    the first [pulses] groups are [[1]], the others [[0]]. *)
Definition init_groups (steps pulses : Z) : result groups :=
  if steps <? 0 then Panicked MakesliceLen
  else Ok (map (fun i => if i <? pulses then [1] else [0])
               (seqZ 0 steps)).

(** [groups[i]]; the uses below are guarded by [i < len(groups)-1]. *)
Definition group_at (gs : groups) (i : nat) : list Z := nth i gs [].

(** [groups[len(groups)-1]] *)
Definition last_group (gs : groups) : list Z := group_at gs (length gs - 1).

(** The condition of the [if] inside the pairing loop.  [g[0]] is only
    evaluated after [len(g) == 1] by the short-circuit [&&]. *)
Definition can_pair (gs : groups) (i : nat) : bool :=
  (length (group_at gs i) =? 1)%nat
  && (length (last_group gs) =? 1)%nat
  && negb (hd 0 (group_at gs i) =? hd 0 (last_group gs)).

(** [groups[i] = append(groups[i], groups[len(groups)-1][0])] and then
    [groups = groups[:len(groups)-1]]. *)
Definition pair_at (gs : groups) (i : nat) : groups :=
  take (length gs - 1)
       (<[i := group_at gs i ++ [hd 0 (last_group gs)]]> gs).

(** The inner [for i := 0; i < len(groups)-1; i++] loop, entered at [i]
    with the running [count].  The index is a [nat]: it starts at 0 and
    only grows.  On an empty list [length gs - 1] is 0 where Go has -1;
    the guard is false either way. *)
Equations? pair_loop (gs : groups) (i : nat) (count : Z) : groups * Z
  by wf (length gs - 1 - i)%nat lt :=
  pair_loop gs i count with lt_dec i (length gs - 1) := {
    | left Hlt with can_pair gs i := {
        | true => pair_loop (pair_at gs i) (S i) (count + 1)
        | false => pair_loop gs (S i) count }
    | right _ => (gs, count) }.
Proof.
  - unfold pair_at. rewrite length_take, length_insert. lia.
  - lia.
Qed.

(** Every pairing shortens the group list by one and adds one to
    [count]; this is what makes the outer loop below well founded. *)
Lemma pair_loop_count (gs : groups) (i : nat) (count : Z) :
  count <= snd (pair_loop gs i count)
  /\ len (fst (pair_loop gs i count)) + snd (pair_loop gs i count)
     = len gs + count.
Proof.
  funelim (pair_loop gs i count); cbn [fst snd].
  - lia.
  - match goal with IH : _ <= _ /\ _ |- _ => destruct IH as [Hle Hsum] end.
    split; [lia |]. rewrite Hsum.
    unfold len, pair_at. rewrite length_take, length_insert. lia.
  - assumption.
Qed.

(** The outer [for { ... }] loop: one pairing pass per round, left by
    [break] after a round with [count == 0]. *)
Equations? merge_rounds (gs : groups) : groups by wf (length gs) lt :=
  merge_rounds gs with inspect (pair_loop gs 0 0) := {
    | exist _ (gs', count) Hr with inspect (count =? 0) := {
        | exist _ true _ => gs'
        | exist _ false Hc => merge_rounds gs' } }.
Proof.
  apply Z.eqb_neq in Hc.
  pose proof (pair_loop_count gs 0 0) as [Hle Hsum].
  rewrite Hr in Hle, Hsum. cbn in Hle, Hsum. unfold len in Hsum. lia.
Qed.

(** [for _, g := range groups { pattern = append(pattern, g...) }] *)
Definition flatten (gs : groups) : list Z := concat gs.

Definition bjorklund (steps pulses : Z) : result (list Z) :=
  if pulses =? 0 then make_ints steps
  else if pulses =? steps then
    do out <- make_ints steps; Ok (fill_ones out)
  else
    do gs <- init_groups steps pulses; Ok (flatten (merge_rounds gs)).

End Bjorklund.

(** ** Timeline mixing

    The code that [main] (main.go) and [generateRhythm] (examples.go) run
    once the pattern and the drum burst exist.  [sampleRate] is the local
    constant 44100 in both; it is a parameter here. *)

Module Render.

(** [start := i * sampleRate * beatMs / 1000]: the product is formed
    first, left to right, then divided. *)
Definition hit_start (i sampleRate beatMs : Z) : result Z :=
  GoInt.quot (GoInt.mul (GoInt.mul i sampleRate) beatMs) 1000.

(** [out[start+j] += drum[j]], both accesses bounds-checked. *)
Definition add_sample (drum out : list Z) (start j : Z) : result (list Z) :=
  do o <- index out (GoInt.add start j);
  do d <- index drum j;
  store out (GoInt.add start j) (GoInt.add o d).

(** [for j := 0; j < len(drum) && start+j < len(out); j++ { ... }],
    entered at [j].  [j] stays below [len(drum)], an [int], so [j++]
    cannot overflow. *)
Equations? add_drum (drum : list Z) (start j : Z) (out : list Z)
  : result (list Z) by wf (Z.to_nat (len drum - j)) lt :=
  add_drum drum start j out with Z_lt_dec j (len drum) := {
    | left Hj with Z_lt_dec (GoInt.add start j) (len out) := {
        | left _ with add_sample drum out start j := {
            | Ok out' => add_drum drum start (j + 1) out'
            | Panicked p => Panicked p }
        | right _ => Ok out }
    | right _ => Ok out }.
Proof. lia. Qed.

(** [for i, v := range pattern { if v == 1 { ... } }], entered at index
    [i] with [pattern] the part of the slice still to visit. *)
Fixpoint place_hits (sampleRate beatMs : Z) (drum pattern : list Z)
         (i : Z) (out : list Z) : result (list Z) :=
  match pattern with
  | [] => Ok out
  | v :: rest =>
      do out' <- (if v =? 1 then
                    do start <- hit_start i sampleRate beatMs;
                    add_drum drum start 0 out
                  else Ok out);
      place_hits sampleRate beatMs drum rest (i + 1) out'
  end.

(** [beatMs := 60000 / bpm], [totalSamples := sampleRate * steps * beatMs
    / 1000], [out := make([]int, totalSamples)], then the placement
    loop. *)
Definition render (sampleRate bpm steps : Z) (pattern drum : list Z)
  : result (list Z) :=
  do beatMs <- GoInt.quot 60000 bpm;
  do totalSamples <-
    GoInt.quot (GoInt.mul (GoInt.mul sampleRate steps) beatMs) 1000;
  do out <- make_ints totalSamples;
  place_hits sampleRate beatMs drum pattern 0 out.

(** [generateRhythm] up to the buffer handed to the WAV encoder; [drum]
    stands for [synthDrum(sampleRate, drumLengthMs, config.DrumFreq)]. *)
Definition generateRhythm (Steps Pulses BPM : Z) (drum : list Z)
  : result (list Z) :=
  do beatMs <- GoInt.quot 60000 BPM;
  do pattern <- Bjorklund.bjorklund Steps Pulses;
  render 44100 BPM Steps pattern drum.

End Render.

(** ** Pattern display (demo.go) *)

Module Demo.

(** [formatPattern]: a [strings.Builder] that receives "X" for an entry
    equal to 1 and "." for any other entry.  [main] and [generateRhythm]
    print the same characters one by one. *)
Definition formatPattern (pattern : list Z) : string :=
  fold_left (fun result v =>
               if v =? 1 then String.append result "X"
               else String.append result ".")
            pattern EmptyString.

End Demo.

Import Bjorklund Render.

(** * Vocabulary of the statements *)

(** The number of hits (entries equal to 1) of a pattern. *)
Definition hits (pattern : list Z) : Z :=
  len (filter (fun v => v = 1) pattern).

(** The symbol of the initial group [i]. *)
Definition symbol_of (pulses i : Z) : Z := if i <? pulses then 1 else 0.

(** Groups that are all [[1]]. *)
Definition all_ones (gs : groups) : Prop := Forall (fun g => g = [1]) gs.

(** The step relation of the outer loop of [bjorklund]: [gs'] is the state
    one round after [gs] when that round did not reach the [break]. *)
Definition next_round (gs' gs : groups) : Prop :=
  snd (pair_loop gs 0 0) <> 0 /\ gs' = fst (pair_loop gs 0 0).

(** [s[n]] read without a check, 0 outside the slice on the right. *)
Definition get (s : list Z) (n : Z) : Z := nth (Z.to_nat n) s 0.

(** The burst laid at offset [start], read at buffer position [n]. *)
Definition burst_at (drum : list Z) (start n : Z) : Z :=
  if (start <=? n) && (n <? start + len drum) then get drum (n - start)
  else 0.

(** The sum, at buffer position [n], of one burst per hit of [pattern]
    (whose first entry has index [i]), the burst of hit [k] laid at
    [(k * sampleRate * beatMs) / 1000], the product taken before the
    truncating division. *)
Fixpoint bursts_sum (sampleRate beatMs : Z) (drum pattern : list Z)
         (i n : Z) : Z :=
  match pattern with
  | [] => 0
  | v :: rest =>
      (if v =? 1
       then burst_at drum (Z.quot (i * sampleRate * beatMs) 1000) n
       else 0)
      + bursts_sum sampleRate beatMs drum rest (i + 1) n
  end.

(** A pattern whose only hit is at index [k]. *)
Definition single_hit (pattern : list Z) (k : nat) : Prop :=
  pattern !! k = Some 1 /\ forall i : nat, i <> k -> pattern !! i <> Some 1.

(** The quantity the design document calls [samplesPerBeat]:
    [sampleRate * beatMs / 1000] with [beatMs = 60000 / bpm], both
    divisions truncated.  The code has no such variable. *)
Definition spec_samplesPerBeat (sampleRate bpm : Z) : Z :=
  Z.quot (sampleRate * Z.quot 60000 bpm) 1000.

(** The offset of the hit at index [i] when no product overflows:
    [(i * sampleRate * beatMs) / 1000]. *)
Definition hit_offset (i sampleRate beatMs : Z) : Z :=
  Z.quot (i * sampleRate * beatMs) 1000.

(** The character [formatPattern] writes for one entry. *)
Definition step_char (v : Z) : ascii := if v =? 1 then "X"%char else "."%char.

(** [n] copies of a string, one after the other. *)
Fixpoint repeat_string (n : nat) (t : string) : string :=
  match n with
  | O => EmptyString
  | S n' => String.append t (repeat_string n' t)
  end.

(** [k] groups [[1,0]], then [nh] groups [[1]], then [nr] groups [[0]]:
    the shape the group list of [bjorklund] has throughout. *)
Definition paired_groups (k nh nr : nat) : groups :=
  replicate k [1; 0] ++ replicate nh [1] ++ replicate nr [0].

(** Group lists whose one-symbol groups all hold the same symbol; they
    admit no pairing. *)
Definition singles_agree (gs : groups) : Prop :=
  exists x : Z, forall g, g ∈ gs -> length g = 1%nat -> g = [x].

(** [pulses] brought into [0 .. steps]: the number of initial groups
    that hold a hit. *)
Definition clamp_pulses (steps pulses : Z) : nat :=
  Z.to_nat (Z.max 0 (Z.min pulses steps)).

(** The number of pairings [bjorklund] performs. *)
Definition pairings (steps pulses : Z) : nat :=
  Nat.min (clamp_pulses steps pulses)
          (Z.to_nat steps - clamp_pulses steps pulses).

(** Hit-rest pairs first, then the hits or the rests that found no
    partner. *)
Definition paired_pattern (steps pulses : Z) : list Z :=
  concat (replicate (pairings steps pulses) [1; 0])
  ++ replicate (clamp_pulses steps pulses - pairings steps pulses) 1
  ++ replicate (Z.to_nat steps - clamp_pulses steps pulses
                - pairings steps pulses) 0.

(** * Properties of [bjorklund] *)

Section BjorklundFacts.

Implicit Types (gs : groups) (i : nat) (count steps pulses : Z).

Lemma last_group_snoc gs (g : list Z) : last_group (gs ++ [g]) = g.
Proof.
  unfold last_group, group_at. rewrite length_app. cbn.
  replace (length gs + 1 - 1)%nat with (length gs) by lia.
  rewrite app_nth2, Nat.sub_diag by lia. reflexivity.
Qed.

Lemma group_at_lookup gs i g : gs !! i = Some g -> group_at gs i = g.
Proof.
  unfold group_at. revert i. induction gs as [|h t IH]; intros [|i] H;
    cbn in *; try discriminate; [congruence | auto].
Qed.

(** A pairing moves the single symbol of the last group behind group
    [i]: the flattened list keeps its elements. *)
Lemma pair_at_perm gs i :
  (i < length gs - 1)%nat -> can_pair gs i = true ->
  concat (pair_at gs i) ≡ₚ concat gs.
Proof.
  intros Hi Hc. destruct gs as [|g0 gs0] using rev_ind; [cbn in Hi; lia|].
  clear IHgs0. rewrite length_app in Hi. cbn in Hi.
  unfold can_pair in Hc. rewrite last_group_snoc in Hc.
  apply andb_prop in Hc as [Hc _]. apply andb_prop in Hc as [_ Hl].
  apply Nat.eqb_eq in Hl. destruct g0 as [|x [|? ?]]; try discriminate.
  unfold pair_at. rewrite last_group_snoc, length_app. cbn [length hd].
  replace (length gs0 + 1 - 1)%nat with (length gs0) by lia.
  rewrite insert_app_l by lia.
  rewrite take_app_length' by (rewrite length_insert; reflexivity).
  destruct (lookup_lt_is_Some_2 gs0 i) as [gi Hgi]; [lia|].
  rewrite (group_at_lookup (gs0 ++ [[x]]) i gi)
    by (rewrite lookup_app_l by lia; exact Hgi).
  rewrite <- (take_drop_middle gs0 i gi Hgi) at 2.
  rewrite insert_take_drop by lia.
  rewrite !concat_app. cbn [concat]. rewrite app_nil_r.
  solve_Permutation.
Qed.

Lemma pair_loop_perm gs i count :
  concat (fst (pair_loop gs i count)) ≡ₚ concat gs.
Proof.
  funelim (pair_loop gs i count); cbn [fst].
  - reflexivity.
  - match goal with IH : _ ≡ₚ _ |- _ => rewrite IH end.
    apply pair_at_perm; assumption.
  - assumption.
Qed.

Lemma merge_rounds_perm gs : concat (merge_rounds gs) ≡ₚ concat gs.
Proof.
  funelim (merge_rounds gs).
  - pose proof (pair_loop_perm gs 0 0) as Hp. rewrite Hr in Hp. exact Hp.
  - match goal with IH : _ ≡ₚ _ |- _ => rewrite IH end.
    pose proof (pair_loop_perm gs 0 0) as Hp. rewrite Hr in Hp. exact Hp.
Qed.

(** The outer loop, unfolded once. *)
Lemma merge_rounds_step gs :
  merge_rounds gs =
  if snd (pair_loop gs 0 0) =? 0 then fst (pair_loop gs 0 0)
  else merge_rounds (fst (pair_loop gs 0 0)).
Proof.
  funelim (merge_rounds gs); rewrite Hr; cbn [fst snd];
    match goal with E : (_ =? 0) = _ |- _ => rewrite E end; reflexivity.
Qed.

(** A round that pairs nothing leaves the groups as they are. *)
Lemma pair_loop_idle gs i count :
  snd (pair_loop gs i count) = count -> fst (pair_loop gs i count) = gs.
Proof.
  funelim (pair_loop gs i count); cbn [fst snd]; intros Hs.
  - reflexivity.
  - pose proof (pair_loop_count (pair_at gs i) (S i) (count + 1)). lia.
  - auto.
Qed.

Lemma pair_loop_nonempty gs i count :
  (1 <= length gs)%nat -> (1 <= length (fst (pair_loop gs i count)))%nat.
Proof.
  funelim (pair_loop gs i count); cbn [fst]; intros Hn.
  - exact Hn.
  - match goal with IH : _ -> (1 <= _)%nat |- _ => apply IH end.
    unfold pair_at. rewrite length_take, length_insert. lia.
  - auto.
Qed.

Lemma next_round_shrinks gs' gs :
  next_round gs' gs -> (length gs' < length gs)%nat.
Proof.
  intros [Hc ->]. pose proof (pair_loop_count gs 0 0) as [Hle Hsum].
  unfold len in Hsum. lia.
Qed.

(** *** Initial groups *)

Lemma init_groups_ok steps pulses :
  0 <= steps ->
  exists gs, init_groups steps pulses = Ok gs
             /\ concat gs = map (symbol_of pulses) (seqZ 0 steps)
             /\ length gs = Z.to_nat steps.
Proof.
  intros Hs. unfold init_groups.
  destruct (steps <? 0) eqn:E; [apply Z.ltb_lt in E; lia|].
  eexists. split; [reflexivity|]. split.
  - induction (seqZ 0 steps) as [|k l IH]; [reflexivity|].
    cbn. rewrite IH. unfold symbol_of. destruct (k <? pulses); reflexivity.
  - rewrite length_map, length_seqZ. reflexivity.
Qed.

Lemma hits_cons (v : Z) (l : list Z) :
  hits (v :: l) = (if decide (v = 1) then 1 else 0) + hits l.
Proof.
  unfold hits, len. rewrite filter_cons.
  destruct (decide (v = 1)); cbn [length]; lia.
Qed.

Lemma hits_symbols pulses (n : nat) (m : Z) :
  hits (map (symbol_of pulses) (seqZ m (Z.of_nat n)))
  = Z.max 0 (Z.min (pulses - m) (Z.of_nat n)).
Proof.
  revert m. induction n as [|n IH]; intros m.
  - unfold hits, len. rewrite seqZ_nil by lia. cbn [map].
    rewrite filter_nil. cbn [length]. lia.
  - rewrite seqZ_cons by lia. cbn [map]. rewrite hits_cons.
    replace (Z.pred (Z.of_nat (S n))) with (Z.of_nat n) by lia.
    rewrite IH. unfold symbol_of.
    destruct (m <? pulses) eqn:E;
      [apply Z.ltb_lt in E | apply Z.ltb_ge in E];
      destruct (decide _); try discriminate; try congruence; lia.
Qed.

Lemma hits_perm (l l' : list Z) : l ≡ₚ l' -> hits l = hits l'.
Proof. intros H. unfold hits, len. rewrite H. reflexivity. Qed.

Lemma hits_zeros (n : nat) : hits (replicate n 0) = 0.
Proof.
  induction n as [|n IH]; [reflexivity|].
  cbn [replicate]. rewrite hits_cons, IH.
  destruct (decide _); [discriminate | reflexivity].
Qed.

Lemma hits_fill_ones (out : list Z) : hits (fill_ones out) = len out.
Proof.
  induction out as [|v l IH]; [reflexivity|].
  unfold fill_ones in *. cbn [map]. rewrite hits_cons, IH.
  destruct (decide _); [|congruence]. unfold len. cbn [length]. lia.
Qed.

(** *** Groups that are all [[1]] *)

Lemma all_ones_group_at gs i :
  all_ones gs -> group_at gs i = [1] \/ group_at gs i = [].
Proof.
  unfold group_at. intros H. revert i.
  induction H as [|g l Hg Hl IH]; intros [|i]; cbn; auto.
Qed.

Lemma all_ones_cannot_pair gs i : all_ones gs -> can_pair gs i = false.
Proof.
  intros H. unfold can_pair, last_group.
  destruct (all_ones_group_at gs i H) as [-> | ->];
    destruct (all_ones_group_at gs (length gs - 1) H) as [-> | ->];
    reflexivity.
Qed.

Lemma all_ones_pair_loop gs i count :
  all_ones gs -> pair_loop gs i count = (gs, count).
Proof.
  funelim (pair_loop gs i count); intros Hall.
  - reflexivity.
  - match goal with E : can_pair _ _ = true |- _ =>
      rewrite all_ones_cannot_pair in E by assumption; discriminate E
    end.
  - auto.
Qed.

Lemma all_ones_merge_rounds gs : all_ones gs -> merge_rounds gs = gs.
Proof.
  intros H. rewrite merge_rounds_step, all_ones_pair_loop by assumption.
  reflexivity.
Qed.

Lemma all_ones_concat gs : all_ones gs -> concat gs = replicate (length gs) 1.
Proof.
  induction 1 as [|g l Hg Hl IH]; [reflexivity|].
  subst g. cbn. rewrite IH. reflexivity.
Qed.

Lemma init_groups_excess steps pulses :
  0 <= steps < pulses ->
  exists gs, init_groups steps pulses = Ok gs
             /\ all_ones gs /\ length gs = Z.to_nat steps.
Proof.
  intros Hs. unfold init_groups.
  destruct (steps <? 0) eqn:E; [apply Z.ltb_lt in E; lia|].
  eexists. split; [reflexivity|]. split.
  - apply Forall_fmap, Forall_forall. intros k Hk.
    apply elem_of_seqZ in Hk. cbn.
    destruct (k <? pulses) eqn:Ek; [reflexivity|].
    apply Z.ltb_ge in Ek. lia.
  - rewrite length_map, length_seqZ. reflexivity.
Qed.

(** *** The three branches of [bjorklund] *)

Lemma bjorklund_general steps pulses :
  pulses <> 0 -> pulses <> steps ->
  bjorklund steps pulses =
  do gs <- init_groups steps pulses; Ok (flatten (merge_rounds gs)).
Proof.
  intros H0 Hs. unfold bjorklund.
  destruct (pulses =? 0) eqn:E0; [apply Z.eqb_eq in E0; contradiction|].
  destruct (pulses =? steps) eqn:Es; [apply Z.eqb_eq in Es; contradiction|].
  reflexivity.
Qed.

Lemma bjorklund_excess steps pulses :
  0 <= steps < pulses ->
  bjorklund steps pulses = Ok (replicate (Z.to_nat steps) 1).
Proof.
  intros Hs. rewrite bjorklund_general by lia.
  destruct (init_groups_excess steps pulses Hs) as (gs & -> & Hall & Hlen).
  cbn [bind]. unfold flatten.
  rewrite all_ones_merge_rounds, all_ones_concat, Hlen by assumption.
  reflexivity.
Qed.

Lemma bjorklund_valid steps pulses :
  0 <= pulses <= steps ->
  exists pattern, bjorklund steps pulses = Ok pattern
                  /\ len pattern = steps /\ hits pattern = pulses.
Proof.
  intros Hp. unfold bjorklund, make_ints.
  destruct (steps <? 0) eqn:En; [apply Z.ltb_lt in En; lia|].
  destruct (pulses =? 0) eqn:E0; [apply Z.eqb_eq in E0|].
  { eexists. split; [reflexivity|]. unfold len.
    rewrite length_replicate, hits_zeros. lia. }
  destruct (pulses =? steps) eqn:Es; [apply Z.eqb_eq in Es|].
  { eexists. split; [reflexivity|]. rewrite hits_fill_ones.
    unfold len, fill_ones. rewrite length_map, length_replicate. lia. }
  destruct (init_groups_ok steps pulses) as (gs & -> & Hcat & Hlen); [lia|].
  eexists. split; [reflexivity|]. unfold flatten.
  pose proof (merge_rounds_perm gs) as Hperm. split.
  - unfold len. rewrite Hperm, Hcat, length_map, length_seqZ. lia.
  - rewrite (hits_perm _ _ Hperm), Hcat.
    replace steps with (Z.of_nat (Z.to_nat steps)) at 1 by lia.
    rewrite hits_symbols. lia.
Qed.

End BjorklundFacts.

(** ** The claims about [bjorklund] *)

(** C1 (the code departs from its documentation): [bjorklund(8, 3)] is
    documented to return the tresillo [1,0,0,1,0,0,1,0]; the pairing loop
    produces [1,0,1,0,1,0,0,0] instead, which is not the tresillo. *)
Theorem bjorklund_8_3_not_tresillo :
  bjorklund 8 3 = Ok [1; 0; 1; 0; 1; 0; 0; 0]
  /\ bjorklund 8 3 <> Ok [1; 0; 0; 1; 0; 0; 1; 0].
Proof. split; [vm_compute; reflexivity | vm_compute; discriminate]. Qed.

(** C7: [bjorklund(16, 6)] returns
    [1,0,1,0,1,0,1,0,1,0,1,0,0,0,0,0], displayed X.X.X.X.X.X..... *)
Theorem bjorklund_16_6 :
  bjorklund 16 6 = Ok [1; 0; 1; 0; 1; 0; 1; 0; 1; 0; 1; 0; 0; 0; 0; 0].
Proof. vm_compute. reflexivity. Qed.

(** C2 as stated fails: with [pulses > steps] the call [bjorklund(3, 5)]
    does not fail, it returns a pattern. *)
Lemma bjorklund_3_5_does_not_fail :
  (5 > 3 \/ 3 <= 0) /\ ~ (exists p, bjorklund 3 5 = Panicked p).
Proof.
  split; [left; lia|]. intros [p Hp]. vm_compute in Hp. discriminate Hp.
Qed.

(** C2, amended: [bjorklund] has no [InvalidSpec] check.  When
    [pulses > steps] or [steps <= 0], it ends in a runtime panic (from
    [make] with a negative length, before any pattern exists) exactly when
    [steps < 0]; otherwise it returns the all-hit pattern of length
    [steps], which is the empty pattern for [steps = 0]. *)
Theorem bjorklund_invalid_spec (steps pulses : Z) :
  pulses > steps \/ steps <= 0 ->
  bjorklund steps pulses =
  if steps <? 0 then Panicked MakesliceLen
  else Ok (replicate (Z.to_nat steps) 1).
Proof.
  intros Hinv. destruct (steps <? 0) eqn:En.
  - apply Z.ltb_lt in En. unfold bjorklund, make_ints, init_groups.
    rewrite (proj2 (Z.ltb_lt steps 0) En).
    destruct (pulses =? 0); [reflexivity|].
    destruct (pulses =? steps); reflexivity.
  - apply Z.ltb_ge in En. destruct (Z_lt_dec steps pulses) as [Hlt|Hge].
    + apply bjorklund_excess. lia.
    + assert (steps = 0) as -> by lia. unfold bjorklund.
      destruct (pulses =? 0); [reflexivity|].
      destruct (pulses =? 0); reflexivity.
Qed.

Lemma bjorklund_invalid_spec_witness :
  (5 > 3 \/ 3 <= 0) /\ bjorklund 3 5 = Ok [1; 1; 1].
Proof.
  split; [left; lia|]. apply (bjorklund_invalid_spec 3 5). left; lia.
Defined.

(** C3: for [steps >= 1] and [0 <= pulses <= steps], [bjorklund] returns a
    pattern of length exactly [steps] with exactly [pulses] entries equal
    to 1. *)
Theorem bjorklund_pulse_count (steps pulses : Z) :
  1 <= steps -> 0 <= pulses <= steps ->
  exists pattern, bjorklund steps pulses = Ok pattern
                  /\ len pattern = steps /\ hits pattern = pulses.
Proof. intros _ Hp. apply bjorklund_valid; assumption. Qed.

Lemma bjorklund_pulse_count_witness :
  1 <= 12 /\ 0 <= 5 <= 12 /\
  exists pattern, bjorklund 12 5 = Ok pattern
                  /\ len pattern = 12 /\ hits pattern = 5.
Proof.
  split; [lia|]. split; [lia|]. apply (bjorklund_pulse_count 12 5); lia.
Defined.

(** C8: for [steps >= 1] and [pulses > steps], [bjorklund] does not fail;
    every initial group is [[1]], the pairing loop pairs nothing, and the
    result is the all-hit pattern of length [steps]. *)
Theorem bjorklund_excess_pulses (steps pulses : Z) :
  1 <= steps -> steps < pulses ->
  bjorklund steps pulses = Ok (replicate (Z.to_nat steps) 1)
  /\ exists gs, init_groups steps pulses = Ok gs
                /\ Forall (fun g => g = [1]) gs
                /\ pair_loop gs 0 0 = (gs, 0).
Proof.
  intros Hs Hp. split; [apply bjorklund_excess; lia|].
  destruct (init_groups_excess steps pulses) as (gs & Hgs & Hall & _); [lia|].
  exists gs. split; [exact Hgs|]. split; [exact Hall|].
  apply all_ones_pair_loop. exact Hall.
Qed.

Lemma bjorklund_excess_pulses_witness :
  1 <= 4 /\ 4 < 9 /\ bjorklund 4 9 = Ok [1; 1; 1; 1].
Proof.
  split; [lia|]. split; [lia|].
  apply (bjorklund_excess_pulses 4 9); lia.
Defined.

(** C10: for [steps >= 1] and [0 <= pulses <= steps], [bjorklund] returns.
    On every non-empty group list a pairing round either pairs nothing
    (and the outer loop is left with the groups unchanged) or strictly
    shortens the list; the list never becomes empty; hence the step
    relation of the outer loop is well founded. *)
Theorem bjorklund_terminates (steps pulses : Z) :
  1 <= steps -> 0 <= pulses <= steps ->
  (exists pattern, bjorklund steps pulses = Ok pattern)
  /\ (forall gs : groups,
        (1 <= length gs)%nat ->
        (1 <= length (fst (pair_loop gs 0 0)))%nat
        /\ ((snd (pair_loop gs 0 0) = 0
             /\ fst (pair_loop gs 0 0) = gs
             /\ merge_rounds gs = gs)
            \/ (0 < snd (pair_loop gs 0 0)
                /\ (length (fst (pair_loop gs 0 0)) < length gs)%nat
                /\ merge_rounds gs = merge_rounds (fst (pair_loop gs 0 0)))))
  /\ well_founded next_round.
Proof.
  intros _ Hp. split; [|split].
  - destruct (bjorklund_valid steps pulses Hp) as (pattern & Hb & _).
    exists pattern. exact Hb.
  - intros gs Hn. split; [apply pair_loop_nonempty; exact Hn|].
    pose proof (pair_loop_count gs 0 0) as [Hle Hsum].
    rewrite (merge_rounds_step gs).
    destruct (snd (pair_loop gs 0 0) =? 0) eqn:E.
    + apply Z.eqb_eq in E. left. split; [exact E|].
      rewrite (pair_loop_idle gs 0 0 E). split; reflexivity.
    + apply Z.eqb_neq in E. right. split; [lia|]. split; [|reflexivity].
      unfold len in Hsum. lia.
  - apply (well_founded_lt_compat _ (fun gs : groups => length gs)).
    intros gs' gs H. apply next_round_shrinks. exact H.
Qed.

Lemma bjorklund_terminates_witness :
  1 <= 8 /\ 0 <= 3 <= 8 /\ exists pattern, bjorklund 8 3 = Ok pattern.
Proof.
  split; [lia|]. split; [lia|].
  apply (bjorklund_terminates 8 3); lia.
Defined.

(** * Properties of the mixing code *)

Ltac int_range :=
  unfold GoInt.is_int, GoInt.min_int, GoInt.max_int in *; lia.

Section GoIntFacts.

Import GoInt.

Lemma wrap_small (z : Z) : is_int z -> wrap z = z.
Proof.
  unfold is_int, min_int, max_int, wrap. intros H.
  rewrite Z.mod_small by lia. lia.
Qed.

Lemma wrap_is_int (z : Z) : is_int (wrap z).
Proof.
  unfold is_int, min_int, max_int, wrap.
  pose proof (Z.mod_pos_bound (z + 2 ^ 63) (2 ^ 64)). lia.
Qed.

Lemma wrap_add_l (a b : Z) : wrap (wrap a + b) = wrap (a + b).
Proof.
  unfold wrap. f_equal.
  replace (((a + 2 ^ 63) mod 2 ^ 64 - 2 ^ 63) + b + 2 ^ 63)
    with ((a + 2 ^ 63) mod 2 ^ 64 + b) by lia.
  rewrite Zplus_mod_idemp_l. f_equal. lia.
Qed.

Lemma wrap_mul_l (a b : Z) : wrap (wrap a * b) = wrap (a * b).
Proof.
  unfold wrap. f_equal.
  replace (((a + 2 ^ 63) mod 2 ^ 64 - 2 ^ 63) * b + 2 ^ 63)
    with (((a + 2 ^ 63) mod 2 ^ 64) * b + (2 ^ 63 - 2 ^ 63 * b)) by lia.
  rewrite <- Zplus_mod_idemp_l, Zmult_mod_idemp_l, Zplus_mod_idemp_l.
  f_equal. lia.
Qed.

(** Only the full product has to fit: a wrapped intermediate product does
    not change the result. *)
Lemma mul3_small (a b c : Z) : is_int (a * b * c) -> mul (mul a b) c = a * b * c.
Proof. intros H. unfold mul. rewrite wrap_mul_l. apply wrap_small, H. Qed.

Lemma quot_1000_small (z : Z) :
  0 <= z <= max_int -> quot z 1000 = Ok (Z.quot z 1000).
Proof.
  intros H. unfold quot. cbn [Z.eqb]. f_equal. apply wrap_small.
  pose proof (Z.quot_pos z 1000). pose proof (Z.quot_le_upper_bound z 1000 z).
  int_range.
Qed.

Lemma beatMs_bounds (bpm : Z) : 1 <= bpm -> 0 <= Z.quot 60000 bpm <= 60000.
Proof.
  intros H. split; [apply Z.quot_pos; lia|].
  apply Z.quot_le_upper_bound; lia.
Qed.

Lemma beatMs_ok (bpm : Z) : 1 <= bpm -> quot 60000 bpm = Ok (Z.quot 60000 bpm).
Proof.
  intros H. unfold quot.
  destruct (bpm =? 0) eqn:E; [apply Z.eqb_eq in E; lia|].
  f_equal. apply wrap_small. pose proof (beatMs_bounds bpm H).
  int_range.
Qed.

End GoIntFacts.

Section MixingFacts.

Import GoInt.

Implicit Types (drum out pattern : list Z) (start i j n : Z).

Lemma index_get (s : list Z) n : 0 <= n < len s -> index s n = Ok (get s n).
Proof.
  intros H. unfold index, get, len in *.
  rewrite (proj2 (Z.leb_le 0 n)), (proj2 (Z.ltb_lt n _)) by lia. cbn [andb].
  rewrite nth_lookup.
  destruct (lookup_lt_is_Some_2 s (Z.to_nat n)) as [x ->]; [lia|]. reflexivity.
Qed.

Lemma store_ok (s : list Z) n (x : Z) :
  0 <= n < len s -> store s n x = Ok (<[Z.to_nat n := x]> s).
Proof.
  intros H. unfold store.
  rewrite (proj2 (Z.leb_le 0 n)), (proj2 (Z.ltb_lt n _)) by lia. reflexivity.
Qed.

Lemma get_insert (s : list Z) n k (x : Z) :
  0 <= n -> 0 <= k < len s ->
  get (<[Z.to_nat k := x]> s) n = if n =? k then x else get s n.
Proof.
  intros Hn Hk. unfold get, len in *. rewrite !nth_lookup.
  destruct (n =? k) eqn:E; [apply Z.eqb_eq in E | apply Z.eqb_neq in E].
  - subst n. rewrite list_lookup_insert_eq by lia. reflexivity.
  - rewrite list_lookup_insert_ne by lia. reflexivity.
Qed.

Lemma add_sample_ok drum out start j :
  0 <= j < len drum -> 0 <= start + j < len out -> len out <= max_int ->
  add_sample drum out start j =
  Ok (<[Z.to_nat (start + j) := wrap (get out (start + j) + get drum j)]> out).
Proof.
  intros Hj Hn Hout. unfold add_sample, add.
  rewrite (wrap_small (start + j))
    by int_range.
  rewrite (index_get out), (index_get drum) by assumption. cbn [bind].
  apply store_ok. assumption.
Qed.

(** The inner loop adds the part of the burst from [j] on, clipped at the
    end of the buffer, and never panics when [start] is not negative. *)
Lemma add_drum_spec drum start j out :
  0 <= start -> 0 <= j -> start + j <= max_int -> len out <= max_int ->
  exists out',
    add_drum drum start j out = Ok out'
    /\ len out' = len out
    /\ forall n, 0 <= n < len out ->
         get out' n =
         if (start + j <=? n) && (n <? start + len drum)
         then wrap (get out n + get drum (n - start))
         else get out n.
Proof.
  funelim (add_drum drum start j out); intros Hs Hj0 Hsj Hout;
    repeat match goal with
           | E : Z_lt_dec _ _ = _ |- _ => clear E
           | E : _ = add_drum _ _ _ _ |- _ => clear E
           end;
    assert (Hw : add start j = start + j)
      by (apply wrap_small; int_range);
    try rewrite Hw in *.
  - (* j >= len(drum) *)
    exists out. split; [reflexivity|]. split; [reflexivity|]. intros k Hk.
    destruct (start + j <=? k) eqn:E1; [|reflexivity].
    destruct (k <? start + len drum) eqn:E2; [|reflexivity].
    apply Z.leb_le in E1. apply Z.ltb_lt in E2. lia.
  - (* start+j >= len(out) *)
    exists out. split; [reflexivity|]. split; [reflexivity|]. intros k Hk.
    destruct (start + j <=? k) eqn:E1; [|reflexivity].
    apply Z.leb_le in E1. lia.
  - (* the sample was added, the loop goes on *)
    rewrite add_sample_ok in Heq by lia. injection Heq as <-.
    match goal with
    | IH : _ -> _ -> _ -> _ -> exists _, _ |- _ =>
        destruct IH as (out2 & Hrun & Hlen & Hget);
        [lia | lia | lia | unfold len; rewrite length_insert; exact Hout |]
    end.
    exists out2. split; [exact Hrun|].
    unfold len in Hlen |- *. rewrite length_insert in Hlen.
    split; [exact Hlen|]. intros k Hk.
    rewrite Hget by (unfold len; rewrite length_insert; exact Hk).
    rewrite !get_insert by (unfold len in *; lia).
    unfold len in *.
    destruct (k =? start + j) eqn:Ek;
      [apply Z.eqb_eq in Ek | apply Z.eqb_neq in Ek].
    + subst k.
      rewrite (proj2 (Z.leb_gt _ _)) by lia. cbn [andb].
      rewrite (proj2 (Z.leb_le _ _)), (proj2 (Z.ltb_lt _ _)) by lia.
      cbn [andb]. do 3 f_equal. lia.
    + destruct (k <? start + Z.of_nat (length drum));
        [|rewrite !andb_false_r; reflexivity].
      rewrite !andb_true_r.
      destruct (start + (j + 1) <=? k) eqn:E1;
        [apply Z.leb_le in E1 | apply Z.leb_gt in E1].
      * rewrite (proj2 (Z.leb_le _ _)) by lia. reflexivity.
      * rewrite (proj2 (Z.leb_gt _ _)) by lia. reflexivity.
  - (* an access out of range: excluded *)
    rewrite add_sample_ok in Heq by lia. discriminate Heq.
Qed.

Lemma hit_start_ok i (sampleRate beatMs : Z) :
  0 <= i * sampleRate * beatMs <= max_int ->
  hit_start i sampleRate beatMs = Ok (Z.quot (i * sampleRate * beatMs) 1000).
Proof.
  intros H. unfold hit_start. rewrite mul3_small.
  - apply quot_1000_small. exact H.
  - int_range.
Qed.

Lemma len_cons {A : Type} (x : A) (l : list A) : len (x :: l) = 1 + len l.
Proof. unfold len. cbn [length]. lia. Qed.

(** The placement loop never panics while the products
    [i * sampleRate * beatMs] fit in an [int], and the buffer it returns
    is the buffer it was given plus one clipped burst per hit. *)
Lemma place_hits_spec (sampleRate beatMs : Z) drum pattern i out :
  0 <= sampleRate -> 0 <= beatMs -> 0 <= i ->
  (i + len pattern) * sampleRate * beatMs <= max_int ->
  len out <= max_int ->
  (forall n, 0 <= n < len out -> is_int (get out n)) ->
  exists out',
    place_hits sampleRate beatMs drum pattern i out = Ok out'
    /\ len out' = len out
    /\ (forall n, 0 <= n < len out -> is_int (get out' n))
    /\ forall n, 0 <= n < len out ->
         get out' n =
         wrap (get out n + bursts_sum sampleRate beatMs drum pattern i n).
Proof.
  intros Hsr Hbm. revert i out.
  induction pattern as [|v rest IH]; intros i out Hi Hprod Hout Hint.
  - exists out. split; [reflexivity|]. split; [reflexivity|].
    split; [exact Hint|]. intros n Hn. cbn [bursts_sum].
    rewrite Z.add_0_r, wrap_small; [reflexivity | apply Hint, Hn].
  - rewrite len_cons in Hprod. pose proof (Zle_0_nat (length rest)) as Hr.
    fold (len rest) in Hr.
    assert (Hstep : exists out1,
               (if v =? 1
                then do start <- hit_start i sampleRate beatMs;
                     add_drum drum start 0 out
                else Ok out) = Ok out1
               /\ len out1 = len out
               /\ (forall n, 0 <= n < len out -> is_int (get out1 n))
               /\ forall n, 0 <= n < len out ->
                    get out1 n =
                    wrap (get out n
                          + (if v =? 1
                             then burst_at drum
                                    (Z.quot (i * sampleRate * beatMs) 1000) n
                             else 0))).
    { destruct (v =? 1).
      - assert (Hp : 0 <= i * sampleRate * beatMs <= max_int) by nia.
        rewrite hit_start_ok by exact Hp. cbn [bind].
        set (start := Z.quot (i * sampleRate * beatMs) 1000).
        assert (Hst : 0 <= start <= max_int).
        { subst start. split; [apply Z.quot_pos; lia|].
          apply Z.quot_le_upper_bound; lia. }
        destruct (add_drum_spec drum start 0 out) as (out1 & Hrun & Hlen & Hget);
          [lia | lia | lia | exact Hout |].
        exists out1. split; [exact Hrun|]. split; [exact Hlen|].
        assert (Hval : forall n, 0 <= n < len out ->
                     get out1 n = wrap (get out n + burst_at drum start n)).
        { intros n Hn. rewrite (Hget n Hn). unfold burst_at.
          rewrite Z.add_0_r.
          destruct ((start <=? n) && (n <? start + len drum)); [reflexivity|].
          rewrite Z.add_0_r, wrap_small; [reflexivity | apply Hint, Hn]. }
        split; [|exact Hval]. intros n Hn. rewrite (Hval n Hn).
        apply wrap_is_int.
      - exists out. split; [reflexivity|]. split; [reflexivity|].
        split; [exact Hint|]. intros n Hn.
        rewrite Z.add_0_r, wrap_small; [reflexivity | apply Hint, Hn]. }
    destruct Hstep as (out1 & Hrun1 & Hlen1 & Hint1 & Hget1).
    cbn [place_hits]. rewrite Hrun1. cbn [bind].
    destruct (IH (i + 1) out1) as (out2 & Hrun2 & Hlen2 & Hint2 & Hget2);
      [lia | nia | lia | rewrite Hlen1; exact Hint1 |].
    exists out2. split; [exact Hrun2|]. split; [lia|].
    rewrite Hlen1 in Hint2, Hget2. split; [exact Hint2|].
    intros n Hn. rewrite (Hget2 n Hn), (Hget1 n Hn). cbn [bursts_sum].
    rewrite wrap_add_l. f_equal. lia.
Qed.

Lemma get_zeros (m : nat) n : get (replicate m 0) n = 0.
Proof.
  unfold get. rewrite nth_lookup.
  destruct (replicate m 0 !! Z.to_nat n) as [x|] eqn:E; [|reflexivity].
  apply lookup_replicate in E as [-> _]. reflexivity.
Qed.

Lemma make_ints_ok (t : Z) :
  0 <= t -> make_ints t = Ok (replicate (Z.to_nat t) 0).
Proof.
  intros H. unfold make_ints.
  destruct (t <? 0) eqn:E; [apply Z.ltb_lt in E; lia | reflexivity].
Qed.

Lemma len_zeros (t : Z) : 0 <= t -> len (replicate (Z.to_nat t) 0) = t.
Proof. intros H. unfold len. rewrite length_replicate. lia. Qed.

(** [render] on inputs whose products fit in an [int]: it returns, the
    buffer has the length of the design document, and each sample is
    the (wrapped) sum of the bursts laid at the hits. *)
Lemma render_spec (sampleRate bpm steps : Z) pattern drum :
  1 <= sampleRate -> 1 <= bpm -> 0 <= steps ->
  sampleRate * steps * Z.quot 60000 bpm <= max_int ->
  len pattern * sampleRate * Z.quot 60000 bpm <= max_int ->
  exists out,
    render sampleRate bpm steps pattern drum = Ok out
    /\ len out = Z.quot (sampleRate * steps * Z.quot 60000 bpm) 1000
    /\ forall n, 0 <= n < len out ->
         get out n =
         wrap (bursts_sum sampleRate (Z.quot 60000 bpm) drum pattern 0 n).
Proof.
  intros Hsr Hbpm Hsteps Htot Hpat. unfold render.
  rewrite beatMs_ok by exact Hbpm. cbn [bind].
  pose proof (beatMs_bounds bpm Hbpm) as Hbm.
  set (beatMs := Z.quot 60000 bpm) in *.
  assert (Hp : 0 <= sampleRate * steps * beatMs) by nia.
  rewrite mul3_small by int_range.
  rewrite quot_1000_small by lia. cbn [bind].
  set (total := Z.quot (sampleRate * steps * beatMs) 1000).
  assert (Ht : 0 <= total <= max_int).
  { subst total. split; [apply Z.quot_pos; lia|].
    apply Z.quot_le_upper_bound; lia. }
  rewrite make_ints_ok by lia. cbn [bind].
  destruct (place_hits_spec sampleRate beatMs drum pattern 0
              (replicate (Z.to_nat total) 0))
    as (out & Hrun & Hlen & _ & Hget).
  - lia.
  - lia.
  - lia.
  - rewrite Z.add_0_l. exact Hpat.
  - rewrite len_zeros; lia.
  - intros n _. rewrite get_zeros. int_range.
  - rewrite len_zeros in Hlen, Hget by lia.
    exists out. split; [exact Hrun|]. split; [exact Hlen|].
    intros n Hn. rewrite Hlen in Hn. rewrite (Hget n Hn), get_zeros.
    reflexivity.
Qed.

Lemma bursts_sum_no_hit (sampleRate beatMs : Z) drum pattern i n :
  1 ∉ pattern -> bursts_sum sampleRate beatMs drum pattern i n = 0.
Proof.
  revert i. induction pattern as [|v rest IH]; intros i Hno; [reflexivity|].
  cbn [bursts_sum]. apply not_elem_of_cons in Hno as [Hv Hrest].
  destruct (v =? 1) eqn:E; [apply Z.eqb_eq in E; congruence|].
  rewrite IH by exact Hrest. reflexivity.
Qed.

Lemma bursts_sum_single (sampleRate beatMs : Z) drum pattern (k : nat) i n :
  single_hit pattern k ->
  bursts_sum sampleRate beatMs drum pattern i n =
  burst_at drum (Z.quot ((i + Z.of_nat k) * sampleRate * beatMs) 1000) n.
Proof.
  revert k i. induction pattern as [|v rest IH]; intros k i [Hk Hother].
  - rewrite lookup_nil in Hk. discriminate Hk.
  - cbn [bursts_sum]. destruct k as [|k].
    + cbn in Hk. injection Hk as ->. cbn [Z.eqb Pos.eqb].
      rewrite bursts_sum_no_hit, Z.add_0_r, Z.add_0_r; [reflexivity|].
      intros Hin. apply list_elem_of_lookup in Hin as [m Hm].
      apply (Hother (S m)); [lia | exact Hm].
    + destruct (v =? 1) eqn:E.
      { apply Z.eqb_eq in E. subst v. exfalso.
        apply (Hother 0%nat); [lia | reflexivity]. }
      rewrite (IH k (i + 1)).
      * rewrite Z.add_0_l. do 3 f_equal. lia.
      * split; [exact Hk|]. intros m Hm. apply (Hother (S m)). lia.
Qed.

Lemma get_is_int (s : list Z) n : Forall is_int s -> is_int (get s n).
Proof.
  intros H. unfold get. rewrite nth_lookup.
  destruct (s !! Z.to_nat n) as [x|] eqn:E; cbn.
  - exact (Forall_lookup_1 _ _ _ _ H E).
  - int_range.
Qed.

Lemma burst_at_is_int drum start n : Forall is_int drum -> is_int (burst_at drum start n).
Proof.
  intros H. unfold burst_at.
  destruct ((start <=? n) && (n <? start + len drum)).
  - apply get_is_int, H.
  - int_range.
Qed.

(** The placement loop cannot index out of range while the products for
    the hit offsets fit in an [int]. *)
Lemma render_in_bounds (sampleRate bpm steps : Z) pattern drum :
  1 <= sampleRate -> 1 <= bpm ->
  len pattern * sampleRate * Z.quot 60000 bpm <= max_int ->
  render sampleRate bpm steps pattern drum <> Panicked IndexOutOfRange.
Proof.
  intros Hsr Hbpm Hpat. unfold render.
  rewrite beatMs_ok by exact Hbpm. cbn [bind].
  pose proof (beatMs_bounds bpm Hbpm) as Hbm.
  set (beatMs := Z.quot 60000 bpm) in *.
  unfold quot at 1. cbn [Z.eqb bind].
  set (total := wrap (Z.quot (mul (mul sampleRate steps) beatMs) 1000)).
  pose proof (wrap_is_int
                (Z.quot (mul (mul sampleRate steps) beatMs) 1000)) as Ht.
  fold total in Ht. unfold make_ints.
  destruct (total <? 0) eqn:E; [cbn [bind]; discriminate|].
  apply Z.ltb_ge in E. cbn [bind].
  destruct (place_hits_spec sampleRate beatMs drum pattern 0
              (replicate (Z.to_nat total) 0))
    as (out & Hrun & _).
  - lia.
  - lia.
  - lia.
  - rewrite Z.add_0_l. exact Hpat.
  - rewrite len_zeros by lia. unfold is_int in Ht. lia.
  - intros n _. rewrite get_zeros. int_range.
  - rewrite Hrun. discriminate.
Qed.

(** [generateRhythm] end to end: a valid rhythm at a tempo whose products
    fit in an [int] yields a buffer of the documented length. *)
Lemma generateRhythm_length (Steps Pulses BPM : Z) drum :
  1 <= Steps -> 0 <= Pulses <= Steps -> 1 <= BPM ->
  44100 * Steps * Z.quot 60000 BPM <= max_int ->
  exists out,
    generateRhythm Steps Pulses BPM drum = Ok out
    /\ len out = Z.quot (44100 * Steps * Z.quot 60000 BPM) 1000.
Proof.
  intros Hs Hp Hb Hfit. unfold generateRhythm.
  rewrite beatMs_ok by exact Hb. cbn [bind].
  destruct (bjorklund_valid Steps Pulses Hp) as (pattern & -> & Hlen & _).
  cbn [bind].
  destruct (render_spec 44100 BPM Steps pattern drum)
    as (out & Hrun & Hout & _); try lia.
  exists out. split; [exact Hrun | exact Hout].
Qed.

End MixingFacts.

(** ** The claims about the mixing code *)

(** C4 as stated fails: at 44100 Hz and 110 bpm the hit at index 2 is
    laid at offset 48069, not at [2 * samplesPerBeat = 48068]; and in a
    small render (3 Hz, 120 bpm) the hit at index 3 lands at offset 4,
    not at [3 * samplesPerBeat = 3]. *)
Lemma hit_start_not_multiple_of_samplesPerBeat :
  hit_start 2 44100 (Z.quot 60000 110) = Ok 48069
  /\ 2 * spec_samplesPerBeat 44100 110 = 48068
  /\ hit_start 2 44100 (Z.quot 60000 110)
     <> Ok (2 * spec_samplesPerBeat 44100 110)
  /\ render 3 120 4 [0; 0; 0; 1] [7] = Ok [0; 0; 0; 0; 7; 0]
  /\ 3 * spec_samplesPerBeat 3 120 = 3.
Proof. repeat split; vm_compute; congruence. Qed.

(** C4, amended: for [sampleRate >= 1], [bpm >= 1] and a pattern of
    [steps] entries with [sampleRate * steps * beatMs] within the [int]
    range, [render] returns the buffer in which the burst of every hit
    index [i] is added starting at offset
    [(i * sampleRate * beatMs) / 1000] (product first, then one truncating
    division; [beatMs = 60000 / bpm] truncated), clipped at the end of the
    buffer.  That offset is [i * samplesPerBeat] whenever
    [sampleRate * beatMs] is a multiple of 1000. *)
Theorem render_hit_offsets (sampleRate bpm steps : Z) (pattern drum : list Z) :
  1 <= sampleRate -> 1 <= bpm -> 0 <= steps -> len pattern = steps ->
  sampleRate * steps * Z.quot 60000 bpm <= GoInt.max_int ->
  (exists out,
      render sampleRate bpm steps pattern drum = Ok out
      /\ forall n, 0 <= n < len out ->
           get out n =
           GoInt.wrap
             (bursts_sum sampleRate (Z.quot 60000 bpm) drum pattern 0 n))
  /\ ((sampleRate * Z.quot 60000 bpm) mod 1000 = 0 ->
      forall i, 0 <= i ->
        Z.quot (i * sampleRate * Z.quot 60000 bpm) 1000
        = i * spec_samplesPerBeat sampleRate bpm).
Proof.
  intros Hsr Hbpm Hsteps Hlen Htot. split.
  - destruct (render_spec sampleRate bpm steps pattern drum)
      as (out & Hrun & _ & Hget); try assumption.
    + rewrite Hlen. lia.
    + exists out. split; [exact Hrun | exact Hget].
  - intros Hmod i Hi. unfold spec_samplesPerBeat.
    pose proof (beatMs_bounds bpm Hbpm) as Hbm.
    set (p := sampleRate * Z.quot 60000 bpm) in *.
    assert (Hp : 0 <= p) by (subst p; nia).
    rewrite <- Z.mul_assoc. fold p.
    rewrite !Z.quot_div_nonneg by lia.
    apply Z.mod_divide in Hmod; [|lia]. destruct Hmod as [q Hq].
    rewrite Hq, Z.mul_assoc, !Z.div_mul by lia. reflexivity.
Qed.

Lemma render_hit_offsets_witness :
  exists out,
    render 3 120 4 [0; 0; 0; 1] [7] = Ok out
    /\ forall n, 0 <= n < len out ->
         get out n =
         GoInt.wrap (bursts_sum 3 (Z.quot 60000 120) [7] [0; 0; 0; 1] 0 n).
Proof.
  apply (render_hit_offsets 3 120 4 [0; 0; 0; 1] [7]);
    first [lia | reflexivity | vm_compute; discriminate].
Defined.

(** C5 as stated fails once [sampleRate * steps * beatMs] leaves the
    64-bit [int] range: the product wraps around, so the buffer is shorter
    than the formula says (first input), or [make] panics on a negative
    length and no buffer is produced (second input). *)
Lemma render_length_overflow :
  1 <= 2 ^ 61 + 625 /\ 1 <= 60000 /\ 1 <= 8
  /\ render (2 ^ 61 + 625) 60000 8 [0; 0; 0; 0; 0; 0; 0; 0] []
     = Ok [0; 0; 0; 0; 0]
  /\ Z.quot ((2 ^ 61 + 625) * 8 * Z.quot 60000 60000) 1000
     = 18446744073709556
  /\ ~ (exists out,
          render (2 ^ 61 + 625) 60000 8 [0; 0; 0; 0; 0; 0; 0; 0] [] = Ok out
          /\ len out
             = Z.quot ((2 ^ 61 + 625) * 8 * Z.quot 60000 60000) 1000)
  /\ render (2 ^ 62) 60000 2 [0; 0] [] = Panicked MakesliceLen.
Proof.
  repeat split; try (vm_compute; congruence).
  intros (out & Hrun & Hlen). vm_compute in Hrun. injection Hrun as <-.
  vm_compute in Hlen. discriminate Hlen.
Qed.

(** C5, amended: for [sampleRate >= 1], [bpm >= 1], [steps >= 1] and a
    pattern of [steps] entries, provided [sampleRate * steps * beatMs]
    does not exceed the largest [int], [render] returns a buffer of length
    exactly [sampleRate * steps * beatMs / 1000], where
    [beatMs = 60000 / bpm] is truncated first and the last division is
    truncated too. *)
Theorem render_buffer_length (sampleRate bpm steps : Z) (pattern drum : list Z) :
  1 <= sampleRate -> 1 <= bpm -> 1 <= steps -> len pattern = steps ->
  sampleRate * steps * Z.quot 60000 bpm <= GoInt.max_int ->
  exists out,
    render sampleRate bpm steps pattern drum = Ok out
    /\ len out = Z.quot (sampleRate * steps * Z.quot 60000 bpm) 1000.
Proof.
  intros Hsr Hbpm Hsteps Hlen Htot.
  destruct (render_spec sampleRate bpm steps pattern drum)
    as (out & Hrun & Hout & _); try assumption.
  - lia.
  - rewrite Hlen. lia.
  - exists out. split; [exact Hrun | exact Hout].
Qed.

Lemma render_buffer_length_witness :
  exists out,
    render 44100 110 12 [1; 0; 1; 0; 1; 0; 1; 0; 1; 0; 0; 0] [0; 419; 838]
    = Ok out
    /\ len out = Z.quot (44100 * 12 * Z.quot 60000 110) 1000.
Proof.
  apply (render_buffer_length 44100 110 12);
    first [lia | reflexivity | vm_compute; discriminate].
Defined.

(** C6 as stated fails: with the single hit at step 3 (3 Hz, 120 bpm, a
    one-sample burst that fits in the buffer) the window
    [[3 * samplesPerBeat, 3 * samplesPerBeat + 1)] is position 3, where
    the buffer holds 0 and not the burst; the burst is at position 4. *)
Lemma single_hit_outside_samplesPerBeat_window :
  exists out,
    render 3 120 4 [0; 0; 0; 1] [7] = Ok out
    /\ 3 * spec_samplesPerBeat 3 120 + len [7] <= len out
    /\ get out (3 * spec_samplesPerBeat 3 120) <> get [7] 0
    /\ get out (3 * spec_samplesPerBeat 3 120 + 1) <> 0.
Proof.
  exists [0; 0; 0; 0; 7; 0].
  repeat split; vm_compute; congruence.
Qed.

(** C6, amended: for a pattern of [steps] entries whose only hit is at
    step [k], with [sampleRate * steps * beatMs] within the [int] range
    and the burst ending inside the buffer, the buffer returned by
    [render] equals the burst sample for sample on the window
    [[start, start + len(drum))] and is zero elsewhere, where
    [start = (k * sampleRate * beatMs) / 1000] (product first, then the
    truncating division). *)
Theorem render_single_hit
        (sampleRate bpm steps : Z) (pattern drum : list Z) (k : nat) :
  1 <= sampleRate -> 1 <= bpm -> 0 <= steps -> len pattern = steps ->
  sampleRate * steps * Z.quot 60000 bpm <= GoInt.max_int ->
  single_hit pattern k ->
  Forall GoInt.is_int drum ->
  Z.quot (Z.of_nat k * sampleRate * Z.quot 60000 bpm) 1000 + len drum
  <= Z.quot (sampleRate * steps * Z.quot 60000 bpm) 1000 ->
  let start := Z.quot (Z.of_nat k * sampleRate * Z.quot 60000 bpm) 1000 in
  exists out,
    render sampleRate bpm steps pattern drum = Ok out
    /\ 0 <= start /\ start + len drum <= len out
    /\ (forall j, 0 <= j < len drum -> get out (start + j) = get drum j)
    /\ (forall n, 0 <= n < len out ->
         ~ (start <= n < start + len drum) -> get out n = 0).
Proof.
  intros Hsr Hbpm Hsteps Hlen Htot Hsingle Hdrum Hfit start.
  pose proof (beatMs_bounds bpm Hbpm) as Hbm.
  assert (Hstart : 0 <= start) by (subst start; apply Z.quot_pos; nia).
  destruct (render_spec sampleRate bpm steps pattern drum)
    as (out & Hrun & Hout & Hget); try assumption.
  - rewrite Hlen. lia.
  - assert (Hval : forall n, 0 <= n < len out ->
                     get out n = burst_at drum start n).
    { intros n Hn. rewrite (Hget n Hn).
      rewrite (bursts_sum_single _ _ _ _ k 0 n Hsingle), Z.add_0_l.
      apply wrap_small, burst_at_is_int, Hdrum. }
    exists out. split; [exact Hrun|]. split; [exact Hstart|].
    split; [lia|]. split.
    + intros j Hj. rewrite Hval by lia. unfold burst_at.
      rewrite (proj2 (Z.leb_le _ _)), (proj2 (Z.ltb_lt _ _)) by lia.
      cbn [andb]. f_equal. lia.
    + intros n Hn Hw. rewrite (Hval n Hn). unfold burst_at.
      destruct (start <=? n) eqn:E1; [|reflexivity].
      destruct (n <? start + len drum) eqn:E2; [|reflexivity].
      apply Z.leb_le in E1. apply Z.ltb_lt in E2. lia.
Qed.

Lemma render_single_hit_witness :
  let start := Z.quot (Z.of_nat 3 * 3 * Z.quot 60000 120) 1000 in
  exists out,
    render 3 120 4 [0; 0; 0; 1] [7] = Ok out
    /\ 0 <= start /\ start + len [7] <= len out
    /\ (forall j, 0 <= j < len [7] -> get out (start + j) = get [7] j)
    /\ (forall n, 0 <= n < len out ->
         ~ (start <= n < start + len [7]) -> get out n = 0).
Proof.
  apply (render_single_hit 3 120 4 [0; 0; 0; 1] [7] 3).
  - lia.
  - lia.
  - lia.
  - reflexivity.
  - vm_compute. discriminate.
  - split; [reflexivity|].
    intros [|[|[|[|i]]]] Hi; cbn; try congruence.
    destruct i; discriminate.
  - repeat constructor; vm_compute; discriminate.
  - vm_compute. discriminate.
Defined.

(** C9 as stated fails: with [sampleRate = 2^62] and [bpm = 60000] the
    product for the hit at index 2 wraps to a negative [start], the guard
    [start+j < len(out)] holds, and [out[start+j]] is out of range. *)
Lemma render_negative_start_out_of_range :
  1 <= 2 ^ 62 /\ 1 <= 60000
  /\ hit_start 2 (2 ^ 62) (Z.quot 60000 60000) = Ok (-9223372036854775)
  /\ render (2 ^ 62) 60000 4 [1; 0; 1; 0] [1] = Panicked IndexOutOfRange.
Proof. repeat split; vm_compute; congruence. Qed.

(** C9, amended: for every drum burst, every [steps], [sampleRate >= 1]
    and [bpm >= 1], and every pattern with
    [len(pattern) * sampleRate * beatMs] within the [int] range (so that
    no hit offset overflows), no read [drum[j]] and no write
    [out[start+j]] of the mixing loop is out of range, also when a burst
    would overrun the end of the buffer. *)
Theorem render_never_out_of_range
        (sampleRate bpm steps : Z) (pattern drum : list Z) :
  1 <= sampleRate -> 1 <= bpm ->
  len pattern * sampleRate * Z.quot 60000 bpm <= GoInt.max_int ->
  render sampleRate bpm steps pattern drum <> Panicked IndexOutOfRange.
Proof. apply render_in_bounds. Qed.

Lemma render_never_out_of_range_witness :
  render 10 120 4 [1; 0; 1; 0] [1; 2; 3; 4; 5; 6; 7; 8; 9]
  <> Panicked IndexOutOfRange.
Proof.
  apply (render_never_out_of_range 10 120 4);
    first [lia | vm_compute; discriminate].
Defined.

(** * Further properties of [bjorklund] *)

Section BjorklundShape.

Implicit Types (gs : groups) (i j k nh nr : nat) (count steps pulses : Z).

(** The pairing loop, unfolded once. *)
Lemma pair_loop_step gs i count :
  pair_loop gs i count =
  if lt_dec i (length gs - 1) then
    if can_pair gs i then pair_loop (pair_at gs i) (S i) (count + 1)
    else pair_loop gs (S i) count
  else (gs, count).
Proof.
  funelim (pair_loop gs i count);
    repeat match goal with
           | E : lt_dec _ _ = _ |- _ => rewrite E; clear E
           | E : can_pair _ _ = _ |- _ => rewrite E; clear E
           end; reflexivity.
Qed.

Lemma pair_loop_no_pair gs i count :
  (forall j, (i <= j)%nat -> can_pair gs j = false) ->
  pair_loop gs i count = (gs, count).
Proof.
  funelim (pair_loop gs i count); intros Hno.
  - reflexivity.
  - match goal with E : can_pair _ _ = true |- _ =>
      rewrite Hno in E by lia; discriminate E
    end.
  - match goal with IH : _ -> pair_loop _ _ _ = _ |- _ => apply IH end.
    intros j Hj. apply Hno. lia.
Qed.

(** A round without pairing has met no pairable index. *)
Lemma pair_loop_idle_no_pair gs i count :
  snd (pair_loop gs i count) = count ->
  forall j, (i <= j < length gs - 1)%nat -> can_pair gs j = false.
Proof.
  funelim (pair_loop gs i count); cbn [fst snd]; intros Hs j Hj.
  - lia.
  - pose proof (pair_loop_count (pair_at gs i) (S i) (count + 1)). lia.
  - destruct (Nat.eq_dec j i) as [-> | Hne]; [assumption|].
    match goal with IH : _ -> forall _, _ -> can_pair _ _ = false |- _ =>
      apply IH; [exact Hs | lia]
    end.
Qed.

Lemma group_at_elem gs i : group_at gs i = [] \/ group_at gs i ∈ gs.
Proof.
  unfold group_at. destruct (nth_in_or_default i gs []) as [Hin | ->].
  - right. apply list_elem_of_In. exact Hin.
  - left. reflexivity.
Qed.

Lemma singles_agree_cannot_pair gs i : singles_agree gs -> can_pair gs i = false.
Proof.
  intros [x Hx]. unfold can_pair, last_group.
  destruct (length (group_at gs i) =? 1)%nat eqn:E1; [|reflexivity].
  destruct (length (group_at gs (length gs - 1)) =? 1)%nat eqn:E2;
    [|reflexivity].
  apply Nat.eqb_eq in E1, E2. cbn [andb].
  destruct (group_at_elem gs i) as [H1 | H1];
    [rewrite H1 in E1; discriminate E1|].
  destruct (group_at_elem gs (length gs - 1)) as [H2 | H2];
    [rewrite H2 in E2; discriminate E2|].
  rewrite (Hx _ H1 E1), (Hx _ H2 E2). cbn [hd].
  rewrite Z.eqb_refl. reflexivity.
Qed.

Lemma paired_groups_singles_agree k nh nr :
  nh = 0%nat \/ nr = 0%nat -> singles_agree (paired_groups k nh nr).
Proof.
  intros Hm. exists (if Nat.eq_dec nr 0%nat then 1 else 0). intros g Hg Hlen.
  unfold paired_groups in Hg. rewrite !elem_of_app in Hg.
  destruct Hg as [Hg | [Hg | Hg]]; apply elem_of_replicate in Hg as [-> Hn].
  - discriminate Hlen.
  - destruct (Nat.eq_dec nr 0%nat); [reflexivity | lia].
  - destruct (Nat.eq_dec nr 0%nat); [lia | reflexivity].
Qed.

Lemma paired_groups_length k nh nr :
  length (paired_groups k nh nr) = (k + nh + nr)%nat.
Proof.
  unfold paired_groups. rewrite !length_app, !length_replicate. lia.
Qed.

(** One pairing on the shape: the first unpaired hit takes the last
    rest. *)
Lemma paired_groups_pair k nh nr :
  can_pair (paired_groups k (S nh) (S nr)) k = true
  /\ pair_at (paired_groups k (S nh) (S nr)) k = paired_groups (S k) nh nr.
Proof.
  assert (Hshape : paired_groups k (S nh) (S nr)
                   = (replicate k [1; 0]
                      ++ [1] :: (replicate nh [1] ++ replicate nr [0]))
                     ++ [[0]]).
  { unfold paired_groups. rewrite (replicate_S_end nr).
    cbn [replicate]. rewrite <- !app_assoc. cbn [app].
    rewrite <- ?app_assoc. reflexivity. }
  set (body := replicate k [1; 0]
               ++ [1] :: (replicate nh [1] ++ replicate nr [0])) in *.
  assert (Hk : body !! k = Some [1]).
  { subst body. rewrite lookup_app_r by (rewrite length_replicate; lia).
    rewrite length_replicate, Nat.sub_diag. reflexivity. }
  assert (Hlen : length body = (k + 1 + nh + nr)%nat).
  { subst body. rewrite length_app, length_replicate. cbn [length].
    rewrite length_app, !length_replicate. lia. }
  assert (Hgk : group_at (body ++ [[0]]) k = [1]).
  { apply group_at_lookup. rewrite lookup_app_l by lia. exact Hk. }
  rewrite Hshape. split.
  - unfold can_pair. rewrite last_group_snoc, Hgk. reflexivity.
  - unfold pair_at. rewrite last_group_snoc, Hgk, length_app. cbn [length hd].
    replace (length body + 1 - 1)%nat with (length body) by lia.
    rewrite insert_app_l by lia.
    rewrite take_app_length' by (rewrite length_insert; reflexivity).
    subst body.
    rewrite insert_app_r_alt by (rewrite length_replicate; lia).
    rewrite length_replicate, Nat.sub_diag. cbn [insert list_insert app].
    unfold paired_groups. rewrite replicate_S_end, <- app_assoc.
    reflexivity.
Qed.

(** A round entered at the first unpaired hit pairs as many hits with
    rests as there are of the scarcer kind. *)
Lemma pair_loop_paired_groups nh : forall k nr count,
  pair_loop (paired_groups k nh nr) k count
  = (paired_groups (k + Nat.min nh nr) (nh - Nat.min nh nr)
                   (nr - Nat.min nh nr),
     count + Z.of_nat (Nat.min nh nr)).
Proof.
  induction nh as [|nh IH]; intros k nr count.
  - rewrite pair_loop_no_pair.
    + cbn [Nat.min]. rewrite Nat.add_0_r, !Nat.sub_0_r, Z.add_0_r.
      reflexivity.
    + intros j _. apply singles_agree_cannot_pair,
        paired_groups_singles_agree. left. reflexivity.
  - destruct nr as [|nr].
    + rewrite pair_loop_no_pair.
      * rewrite Nat.min_0_r, Nat.add_0_r, !Nat.sub_0_r, Z.add_0_r.
        reflexivity.
      * intros j _. apply singles_agree_cannot_pair,
          paired_groups_singles_agree. right. reflexivity.
    + rewrite pair_loop_step.
      destruct (lt_dec k (length (paired_groups k (S nh) (S nr)) - 1))
        as [_ | Hge]; [|rewrite paired_groups_length in Hge; lia].
      destruct (paired_groups_pair k nh nr) as [-> ->].
      rewrite IH. cbn [Nat.min Nat.sub]. f_equal; [f_equal; lia | lia].
Qed.

Lemma merge_rounds_paired_groups nh nr :
  merge_rounds (paired_groups 0 nh nr)
  = paired_groups (Nat.min nh nr) (nh - Nat.min nh nr) (nr - Nat.min nh nr).
Proof.
  assert (Hidle : pair_loop (paired_groups (Nat.min nh nr)
                     (nh - Nat.min nh nr) (nr - Nat.min nh nr)) 0 0
                  = (paired_groups (Nat.min nh nr)
                       (nh - Nat.min nh nr) (nr - Nat.min nh nr), 0)).
  { apply pair_loop_no_pair. intros j _.
    apply singles_agree_cannot_pair, paired_groups_singles_agree. lia. }
  rewrite merge_rounds_step, (pair_loop_paired_groups nh 0 nr 0).
  cbn [fst snd]. rewrite Nat.add_0_l, Z.add_0_l.
  destruct (Z.of_nat (Nat.min nh nr) =? 0); [reflexivity|].
  rewrite merge_rounds_step, Hidle. reflexivity.
Qed.

Lemma map_seqZ_const {A : Type} (f : Z -> A) (c : A) (n : nat) (m : Z) :
  (forall z : Z, m <= z < m + Z.of_nat n -> f z = c) ->
  map f (seqZ m (Z.of_nat n)) = replicate n c.
Proof.
  revert m. induction n as [|n IH]; intros m Hf.
  - rewrite seqZ_nil by lia. reflexivity.
  - rewrite seqZ_cons by lia. cbn [map replicate].
    replace (Z.pred (Z.of_nat (S n))) with (Z.of_nat n) by lia.
    rewrite Hf, IH; [reflexivity | intros k Hk; apply Hf; lia | lia].
Qed.

Lemma init_groups_shape steps pulses :
  0 <= steps ->
  init_groups steps pulses
  = Ok (paired_groups 0 (clamp_pulses steps pulses)
                      (Z.to_nat steps - clamp_pulses steps pulses)).
Proof.
  intros Hs. unfold init_groups, clamp_pulses, paired_groups.
  destruct (steps <? 0) eqn:E; [apply Z.ltb_lt in E; lia|]. f_equal.
  set (c := Z.max 0 (Z.min pulses steps)).
  replace steps with (c + (steps - c)) at 1 by lia.
  rewrite seqZ_app, map_app by lia. cbn [replicate app]. f_equal.
  - replace c with (Z.of_nat (Z.to_nat c)) at 1 by lia.
    apply map_seqZ_const. intros k Hk.
    destruct (k <? pulses) eqn:Ek; [reflexivity|].
    apply Z.ltb_ge in Ek. lia.
  - replace (Z.to_nat steps - Z.to_nat c)%nat with (Z.to_nat (steps - c))
      by lia.
    replace (steps - c) with (Z.of_nat (Z.to_nat (steps - c))) at 1 by lia.
    apply map_seqZ_const. intros k Hk.
    destruct (k <? pulses) eqn:Ek; [|reflexivity].
    apply Z.ltb_lt in Ek. lia.
Qed.

Lemma concat_replicate_single (n : nat) (x : Z) :
  concat (replicate n [x]) = replicate n x.
Proof. induction n as [|n IH]; [reflexivity|]. cbn. rewrite IH. reflexivity. Qed.

(** What [bjorklund] computes, on every input with [steps >= 0]. *)
Lemma bjorklund_shape steps pulses :
  0 <= steps -> bjorklund steps pulses = Ok (paired_pattern steps pulses).
Proof.
  intros Hs. unfold bjorklund, paired_pattern, pairings, clamp_pulses.
  destruct (pulses =? 0) eqn:E0; [apply Z.eqb_eq in E0|].
  { subst pulses. rewrite make_ints_ok by lia.
    replace (Z.max 0 (Z.min 0 steps)) with 0 by lia. cbn.
    rewrite !Nat.sub_0_r. reflexivity. }
  destruct (pulses =? steps) eqn:Es; [apply Z.eqb_eq in Es|].
  { subst pulses. rewrite make_ints_ok by lia. cbn [bind].
    replace (Z.max 0 (Z.min steps steps)) with steps by lia.
    rewrite Nat.sub_diag, Nat.min_0_r, Nat.sub_0_r. cbn.
    unfold fill_ones. rewrite app_nil_r.
    change (map (fun _ : Z => 1) (replicate (Z.to_nat steps) 0))
      with ((fun _ : Z => 1) <$> replicate (Z.to_nat steps) 0).
    rewrite fmap_replicate. reflexivity. }
  rewrite init_groups_shape by exact Hs. cbn [bind]. f_equal.
  unfold flatten, clamp_pulses. rewrite merge_rounds_paired_groups.
  unfold paired_groups. rewrite !concat_app, !concat_replicate_single.
  reflexivity.
Qed.

Lemma hits_app (l l' : list Z) : hits (l ++ l') = hits l + hits l'.
Proof.
  unfold hits, len. rewrite filter_app, length_app. lia.
Qed.

Lemma hits_ones (n : nat) : hits (replicate n 1) = Z.of_nat n.
Proof.
  induction n as [|n IH]; [reflexivity|].
  cbn [replicate]. rewrite hits_cons, IH.
  destruct (decide _); [lia | congruence].
Qed.

Lemma hits_pairs (n : nat) : hits (concat (replicate n [1; 0])) = Z.of_nat n.
Proof.
  induction n as [|n IH]; [reflexivity|].
  cbn [replicate concat app]. rewrite !hits_cons, IH.
  repeat destruct (decide _); try congruence; try discriminate; lia.
Qed.

Lemma paired_pattern_counts steps pulses :
  0 <= steps ->
  len (paired_pattern steps pulses) = steps
  /\ hits (paired_pattern steps pulses) = Z.max 0 (Z.min pulses steps).
Proof.
  intros Hs. unfold paired_pattern, pairings, clamp_pulses.
  set (p := Z.to_nat (Z.max 0 (Z.min pulses steps))).
  set (a := Nat.min p (Z.to_nat steps - p)).
  assert (Hlenp : length (concat (replicate a [1; 0])) = (2 * a)%nat).
  { clear. induction a as [|a IH]; [reflexivity|]. cbn in *. lia. }
  split.
  - unfold len. rewrite !length_app, !length_replicate, Hlenp. lia.
  - rewrite !hits_app, hits_pairs, hits_ones, hits_zeros. lia.
Qed.

Lemma lookup_pairs (a i : nat) (rest : list Z) :
  (concat (replicate a [1; 0]) ++ rest) !! i
  = if (i <? 2 * a)%nat then Some (if Nat.even i then 1 else 0)
    else rest !! (i - 2 * a)%nat.
Proof.
  revert i. induction a as [|a IH]; intros i.
  - cbn. rewrite Nat.sub_0_r. reflexivity.
  - destruct i as [|[|i]];
      [rewrite (proj2 (Nat.ltb_lt _ _)) by lia; reflexivity ..|].
    cbn [replicate concat app lookup list_lookup]. rewrite IH.
    replace (S (S i) <? 2 * S a)%nat with (i <? 2 * a)%nat
      by (destruct (Nat.ltb_spec i (2 * a));
          destruct (Nat.ltb_spec (S (S i)) (2 * S a)); lia || reflexivity).
    replace (S (S i) - 2 * S a)%nat with (i - 2 * a)%nat by lia.
    reflexivity.
Qed.

Lemma paired_pattern_sparse steps pulses :
  0 <= pulses -> 2 * pulses <= steps ->
  forall i : nat,
    paired_pattern steps pulses !! i = Some 1
    <-> Nat.even i = true /\ Z.of_nat i < 2 * pulses.
Proof.
  intros Hp Hs i.
  unfold paired_pattern, pairings, clamp_pulses.
  replace (Z.max 0 (Z.min pulses steps)) with pulses by lia.
  replace (Nat.min (Z.to_nat pulses) (Z.to_nat steps - Z.to_nat pulses))
    with (Z.to_nat pulses) by lia.
  rewrite lookup_pairs, Nat.sub_diag. cbn [replicate app].
  destruct (Nat.ltb_spec i (2 * Z.to_nat pulses)) as [Hlt | Hge].
  - destruct (Nat.even i); split.
    + intros _. split; [reflexivity | lia].
    + reflexivity.
    + discriminate.
    + intros [Habs _]. discriminate Habs.
  - split; [|lia]. intros Hl. apply lookup_replicate in Hl as [Habs _].
    discriminate Habs.
Qed.

Lemma bjorklund_negative_steps steps pulses :
  steps < 0 -> bjorklund steps pulses = Panicked MakesliceLen.
Proof.
  intros Hs. unfold bjorklund, make_ints, init_groups.
  rewrite (proj2 (Z.ltb_lt steps 0) Hs).
  destruct (pulses =? 0); [reflexivity|].
  destruct (pulses =? steps); reflexivity.
Qed.

End BjorklundShape.

(** X1: on every input, [bjorklund] panics exactly when [steps < 0] and
    otherwise returns [min(p, steps - p)] hit-rest pairs followed by the
    hits or the rests that are left over, where [p] is [pulses] brought
    into [0 .. steps]. *)
Theorem bjorklund_closed_form (steps pulses : Z) :
  bjorklund steps pulses
  = if steps <? 0 then Panicked MakesliceLen
    else Ok (paired_pattern steps pulses).
Proof.
  destruct (steps <? 0) eqn:E.
  - apply bjorklund_negative_steps, Z.ltb_lt, E.
  - apply bjorklund_shape, Z.ltb_ge, E.
Qed.

(** X2: for [steps >= 0] and any [pulses], also negative or above
    [steps], [bjorklund] returns a pattern of [steps] entries whose number
    of hits is [pulses] brought into [0 .. steps]. *)
Theorem bjorklund_any_pulses (steps pulses : Z) :
  0 <= steps ->
  exists pattern,
    bjorklund steps pulses = Ok pattern
    /\ len pattern = steps
    /\ hits pattern = Z.max 0 (Z.min pulses steps).
Proof.
  intros Hs. exists (paired_pattern steps pulses).
  split; [apply bjorklund_shape, Hs | apply paired_pattern_counts, Hs].
Qed.

Lemma bjorklund_any_pulses_witness :
  exists pattern,
    bjorklund 5 (-2) = Ok pattern
    /\ len pattern = 5
    /\ hits pattern = Z.max 0 (Z.min (-2) 5).
Proof. apply (bjorklund_any_pulses 5 (-2)). lia. Defined.

(** X3: every entry of a pattern returned by [bjorklund] is 0 or 1. *)
Theorem bjorklund_binary (steps pulses : Z) (pattern : list Z) :
  bjorklund steps pulses = Ok pattern ->
  Forall (fun v => v = 0 \/ v = 1) pattern.
Proof.
  intros Hb. destruct (Z_lt_dec steps 0) as [Hneg | Hpos].
  - rewrite bjorklund_negative_steps in Hb by exact Hneg. discriminate Hb.
  - rewrite bjorklund_shape in Hb by lia. injection Hb as <-.
    unfold paired_pattern. rewrite !Forall_app. repeat split.
    + apply Forall_concat, Forall_replicate.
      constructor; [right; reflexivity|].
      constructor; [left; reflexivity|]. constructor.
    + apply Forall_replicate. right. reflexivity.
    + apply Forall_replicate. left. reflexivity.
Qed.

Lemma bjorklund_binary_witness :
  Forall (fun v => v = 0 \/ v = 1) [1; 0; 1; 0; 1; 0; 0; 0].
Proof. apply (bjorklund_binary 8 3). vm_compute. reflexivity. Defined.

(** X4: the groups the outer loop ends with are a fixed point of the
    pairing round: one more round pairs nothing, and no index below the
    last group meets the pairing condition.  This holds for every group
    list the loop is started on. *)
Theorem merge_rounds_fixed_point (gs : groups) :
  pair_loop (merge_rounds gs) 0 0 = (merge_rounds gs, 0)
  /\ forall i : nat,
       (i < length (merge_rounds gs) - 1)%nat ->
       can_pair (merge_rounds gs) i = false.
Proof.
  assert (Hfix : snd (pair_loop (merge_rounds gs) 0 0) = 0).
  { funelim (merge_rounds gs).
    - match goal with E : (_ =? 0) = true |- _ =>
        pose proof (proj1 (Z.eqb_eq _ _) E) as Hzero
      end.
      pose proof (pair_loop_idle gs 0 0) as Hidle. rewrite Hr in Hidle.
      cbn [fst snd] in Hidle. rewrite (Hidle Hzero), Hr. exact Hzero.
    - assumption. }
  split.
  - rewrite (surjective_pairing (pair_loop (merge_rounds gs) 0 0)).
    rewrite Hfix, (pair_loop_idle _ 0 0 Hfix). reflexivity.
  - intros i Hi. apply (pair_loop_idle_no_pair _ 0 0 Hfix). lia.
Qed.

Lemma merge_rounds_fixed_point_witness :
  can_pair (merge_rounds [[1]; [1]; [0]; [0]; [0]]) 1 = false.
Proof.
  apply (merge_rounds_fixed_point [[1]; [1]; [0]; [0]; [0]]).
  vm_compute. lia.
Defined.

(** X5: on the initial groups of [bjorklund] the first round performs
    exactly [min(p, steps - p)] pairings and the second round none, so
    the outer loop is left after at most two rounds, with
    [steps - min(p, steps - p)] groups. *)
Theorem bjorklund_two_rounds (steps pulses : Z) :
  0 <= steps ->
  exists gs,
    init_groups steps pulses = Ok gs
    /\ snd (pair_loop gs 0 0) = Z.of_nat (pairings steps pulses)
    /\ snd (pair_loop (fst (pair_loop gs 0 0)) 0 0) = 0
    /\ merge_rounds gs = fst (pair_loop gs 0 0)
    /\ length (merge_rounds gs)
       = (Z.to_nat steps - pairings steps pulses)%nat.
Proof.
  intros Hs. eexists. split; [apply init_groups_shape, Hs|].
  set (p := clamp_pulses steps pulses).
  set (q := (Z.to_nat steps - p)%nat).
  assert (Hp : (p <= Z.to_nat steps)%nat) by (subst p; unfold clamp_pulses; lia).
  rewrite merge_rounds_paired_groups, (pair_loop_paired_groups p 0 q 0).
  cbn [fst snd]. rewrite Nat.add_0_l, Z.add_0_l.
  fold (pairings steps pulses). unfold pairings. fold p. fold q.
  split; [reflexivity|]. split; [|split; [reflexivity|]].
  - rewrite pair_loop_no_pair; [reflexivity|]. intros j _.
    apply singles_agree_cannot_pair, paired_groups_singles_agree. lia.
  - rewrite paired_groups_length. lia.
Qed.

Lemma bjorklund_two_rounds_witness :
  exists gs,
    init_groups 8 3 = Ok gs
    /\ snd (pair_loop gs 0 0) = Z.of_nat (pairings 8 3)
    /\ snd (pair_loop (fst (pair_loop gs 0 0)) 0 0) = 0
    /\ merge_rounds gs = fst (pair_loop gs 0 0)
    /\ length (merge_rounds gs) = (Z.to_nat 8 - pairings 8 3)%nat.
Proof. apply (bjorklund_two_rounds 8 3). lia. Defined.

(** X6: when at most half of the steps are pulses
    ([0 <= pulses], [2 * pulses <= steps]), the hits of the returned
    pattern are exactly the even indices below [2 * pulses]; all rests
    that found no partner trail at the end. *)
Theorem bjorklund_sparse_hits (steps pulses : Z) :
  0 <= pulses -> 2 * pulses <= steps ->
  exists pattern,
    bjorklund steps pulses = Ok pattern
    /\ forall i : nat,
         pattern !! i = Some 1
         <-> Nat.even i = true /\ Z.of_nat i < 2 * pulses.
Proof.
  intros Hp Hs. exists (paired_pattern steps pulses).
  split; [apply bjorklund_shape; lia|].
  apply paired_pattern_sparse; assumption.
Qed.

Lemma bjorklund_sparse_hits_witness :
  exists pattern,
    bjorklund 16 6 = Ok pattern
    /\ forall i : nat,
         pattern !! i = Some 1 <-> Nat.even i = true /\ Z.of_nat i < 2 * 6.
Proof. apply (bjorklund_sparse_hits 16 6); lia. Defined.

(** X7: when more than half of the steps are pulses
    ([steps < 2 * pulses], [pulses <= steps]), the rests of the returned
    pattern are exactly the odd indices below [2 * (steps - pulses)]; all
    hits that found no partner trail at the end. *)
Theorem bjorklund_dense_rests (steps pulses : Z) :
  pulses <= steps -> steps < 2 * pulses ->
  exists pattern,
    bjorklund steps pulses = Ok pattern
    /\ forall i : nat,
         pattern !! i = Some 0
         <-> Nat.even i = false /\ Z.of_nat i < 2 * (steps - pulses).
Proof.
  intros Hp Hs. exists (paired_pattern steps pulses).
  split; [apply bjorklund_shape; lia|]. intros i.
  unfold paired_pattern, pairings, clamp_pulses.
  replace (Z.max 0 (Z.min pulses steps)) with pulses by lia.
  replace (Nat.min (Z.to_nat pulses) (Z.to_nat steps - Z.to_nat pulses))
    with (Z.to_nat steps - Z.to_nat pulses)%nat by lia.
  rewrite lookup_pairs, Nat.sub_diag, app_nil_r.
  destruct (Nat.ltb_spec i (2 * (Z.to_nat steps - Z.to_nat pulses)))
    as [Hlt | Hge].
  - destruct (Nat.even i); split.
    + discriminate.
    + intros [Habs _]. discriminate Habs.
    + intros _. split; [reflexivity | lia].
    + reflexivity.
  - split; [|lia]. intros Hl. apply lookup_replicate in Hl as [Habs _].
    discriminate Habs.
Qed.

Lemma bjorklund_dense_rests_witness :
  exists pattern,
    bjorklund 8 5 = Ok pattern
    /\ forall i : nat,
         pattern !! i = Some 0
         <-> Nat.even i = false /\ Z.of_nat i < 2 * (8 - 5).
Proof. apply (bjorklund_dense_rests 8 5); lia. Defined.

(** X8: on every group list, the outer loop only moves symbols: the
    flattened result is a permutation of the flattened input, so it has
    the same length and the same number of hits. *)
Theorem merge_rounds_keeps_symbols (gs : groups) :
  flatten (merge_rounds gs) ≡ₚ flatten gs
  /\ len (flatten (merge_rounds gs)) = len (flatten gs)
  /\ hits (flatten (merge_rounds gs)) = hits (flatten gs).
Proof.
  pose proof (merge_rounds_perm gs) as Hperm. unfold flatten.
  split; [exact Hperm|]. split.
  - unfold len. rewrite Hperm. reflexivity.
  - apply hits_perm, Hperm.
Qed.

(** * Properties of the pattern display *)

Section DisplayFacts.

Import Demo.

Lemma append_empty_r (t : string) : String.append t EmptyString = t.
Proof. induction t as [|c t IH]; [reflexivity|]. cbn. rewrite IH. reflexivity. Qed.

Lemma append_assoc (t u w : string) :
  String.append (String.append t u) w = String.append t (String.append u w).
Proof. induction t as [|c t IH]; [reflexivity|]. cbn. rewrite IH. reflexivity. Qed.

Lemma formatPattern_from (pattern : list Z) (acc : string) :
  fold_left (fun result v =>
               if v =? 1 then String.append result "X"
               else String.append result ".")
            pattern acc
  = String.append acc (formatPattern pattern).
Proof.
  unfold formatPattern. revert acc.
  induction pattern as [|v rest IH]; intros acc.
  - cbn. rewrite append_empty_r. reflexivity.
  - cbn [fold_left]. rewrite IH, (IH (if v =? 1 then _ else _)).
    destruct (v =? 1); cbn; rewrite append_assoc; reflexivity.
Qed.

Lemma formatPattern_cons (v : Z) (rest : list Z) :
  formatPattern (v :: rest) = String (step_char v) (formatPattern rest).
Proof.
  unfold formatPattern at 1. cbn [fold_left]. rewrite formatPattern_from.
  unfold step_char. destruct (v =? 1); reflexivity.
Qed.

Lemma formatPattern_app (l l' : list Z) :
  formatPattern (l ++ l')
  = String.append (formatPattern l) (formatPattern l').
Proof.
  induction l as [|v l IH]; [reflexivity|].
  cbn [app]. rewrite !formatPattern_cons, IH. reflexivity.
Qed.

Lemma formatPattern_replicate (n : nat) (v : Z) :
  formatPattern (replicate n v)
  = repeat_string n (String (step_char v) EmptyString).
Proof.
  induction n as [|n IH]; [reflexivity|].
  cbn [replicate repeat_string]. rewrite formatPattern_cons, IH. reflexivity.
Qed.

Lemma formatPattern_pairs (n : nat) :
  formatPattern (concat (replicate n [1; 0])) = repeat_string n "X.".
Proof.
  induction n as [|n IH]; [reflexivity|].
  cbn [replicate concat app repeat_string].
  rewrite !formatPattern_cons, IH. reflexivity.
Qed.

End DisplayFacts.

(** X9: the display has one character per entry of the pattern, in
    order: "X" where the entry is 1 and "." where it is anything else. *)
Theorem formatPattern_chars (pattern : list Z) :
  String.length (Demo.formatPattern pattern) = length pattern
  /\ forall i : nat,
       String.get i (Demo.formatPattern pattern)
       = step_char <$> pattern !! i.
Proof.
  induction pattern as [|v rest [IHlen IHget]].
  - split; [reflexivity|]. intros i. destruct i; reflexivity.
  - rewrite formatPattern_cons. split.
    + cbn [String.length length]. rewrite IHlen. reflexivity.
    + intros [|i]; [reflexivity|]. cbn [String.get]. apply IHget.
Qed.

(** X10: on patterns whose entries are all 0 or 1, as [bjorklund]
    returns them, the display determines the pattern: two such patterns
    with the same display are equal. *)
Theorem formatPattern_injective (p q : list Z) :
  Forall (fun v => v = 0 \/ v = 1) p ->
  Forall (fun v => v = 0 \/ v = 1) q ->
  Demo.formatPattern p = Demo.formatPattern q -> p = q.
Proof.
  intros Hp. revert q. induction Hp as [|v p Hv Hp IH]; intros q Hq Heq.
  - destruct Hq as [|w q Hw Hq]; [reflexivity|].
    rewrite formatPattern_cons in Heq. discriminate Heq.
  - destruct Hq as [|w q Hw Hq];
      rewrite !formatPattern_cons in Heq; [discriminate Heq|].
    injection Heq as Hc Hrest. f_equal; [|apply IH; assumption].
    destruct Hv as [-> | ->], Hw as [-> | ->];
      first [reflexivity | discriminate Hc].
Qed.

Lemma formatPattern_injective_witness :
  Forall (fun v => v = 0 \/ v = 1) [1; 0; 0]
  /\ ([1; 0; 0] : list Z) = [1; 0; 0].
Proof.
  assert (H : Forall (fun v => v = 0 \/ v = 1) ([1; 0; 0] : list Z)).
  { constructor; [right; reflexivity|].
    constructor; [left; reflexivity|].
    constructor; [left; reflexivity|]. constructor. }
  split; [exact H|].
  apply (formatPattern_injective [1; 0; 0] [1; 0; 0] H H). reflexivity.
Defined.

(** X11: what the demo prints for a rhythm: for [steps >= 0], the display
    of the pattern [bjorklund] returns is "X." once per pairing, then "X"
    for each hit left over, then "." for each rest left over. *)
Theorem formatPattern_bjorklund (steps pulses : Z) (pattern : list Z) :
  bjorklund steps pulses = Ok pattern ->
  Demo.formatPattern pattern
  = String.append
      (repeat_string (pairings steps pulses) "X.")
      (String.append
         (repeat_string (clamp_pulses steps pulses - pairings steps pulses)
                        "X")
         (repeat_string (Z.to_nat steps - clamp_pulses steps pulses
                         - pairings steps pulses) ".")).
Proof.
  intros Hb. destruct (Z_lt_dec steps 0) as [Hneg | Hpos].
  { rewrite bjorklund_negative_steps in Hb by exact Hneg. discriminate Hb. }
  rewrite bjorklund_shape in Hb by lia. injection Hb as <-.
  unfold paired_pattern.
  rewrite !formatPattern_app, formatPattern_pairs, !formatPattern_replicate.
  reflexivity.
Qed.

Lemma formatPattern_bjorklund_witness :
  Demo.formatPattern [1; 0; 1; 0; 1; 0; 0; 0]
  = String.append
      (repeat_string (pairings 8 3) "X.")
      (String.append
         (repeat_string (clamp_pulses 8 3 - pairings 8 3) "X")
         (repeat_string (Z.to_nat 8 - clamp_pulses 8 3 - pairings 8 3) ".")).
Proof. apply (formatPattern_bjorklund 8 3). vm_compute. reflexivity. Defined.

(** * Further properties of the mixing code *)

Section MixingShape.

Import GoInt.

Implicit Types (drum out pattern : list Z) (i j n sampleRate beatMs : Z).

Lemma quot_1000_add_ge (a b : Z) :
  0 <= a -> 0 <= b -> Z.quot a 1000 + Z.quot b 1000 <= Z.quot (a + b) 1000.
Proof.
  intros Ha Hb.
  rewrite (Z.quot_div_nonneg a 1000), (Z.quot_div_nonneg b 1000),
    (Z.quot_div_nonneg (a + b) 1000) by lia.
  pose proof (Z.div_mod a 1000). pose proof (Z.mod_pos_bound a 1000).
  pose proof (Z.div_mod b 1000). pose proof (Z.mod_pos_bound b 1000).
  pose proof (Z.div_mod (a + b) 1000).
  pose proof (Z.mod_pos_bound (a + b) 1000). lia.
Qed.

Lemma quot_1000_add_le (a b : Z) :
  0 <= a -> 0 <= b ->
  Z.quot (a + b) 1000 <= Z.quot a 1000 + Z.quot b 1000 + 1.
Proof.
  intros Ha Hb.
  rewrite (Z.quot_div_nonneg a 1000), (Z.quot_div_nonneg b 1000),
    (Z.quot_div_nonneg (a + b) 1000) by lia.
  pose proof (Z.div_mod a 1000). pose proof (Z.mod_pos_bound a 1000).
  pose proof (Z.div_mod b 1000). pose proof (Z.mod_pos_bound b 1000).
  pose proof (Z.div_mod (a + b) 1000).
  pose proof (Z.mod_pos_bound (a + b) 1000). lia.
Qed.

Lemma hit_offset_nonneg i sampleRate beatMs :
  0 <= i -> 0 <= sampleRate -> 0 <= beatMs -> 0 <= hit_offset i sampleRate beatMs.
Proof. intros. unfold hit_offset. apply Z.quot_pos; nia. Qed.

Lemma hit_offset_mono i j sampleRate beatMs :
  0 <= sampleRate -> 0 <= beatMs -> 0 <= i <= j ->
  hit_offset i sampleRate beatMs <= hit_offset j sampleRate beatMs.
Proof.
  intros Hsr Hbm Hij. unfold hit_offset.
  apply Z.quot_le_mono; [lia|]. rewrite <- !Z.mul_assoc.
  apply Z.mul_le_mono_nonneg_r; [nia | lia].
Qed.

Lemma hit_offset_succ i sampleRate beatMs :
  0 <= i -> 0 <= sampleRate -> 0 <= beatMs ->
  hit_offset i sampleRate beatMs + Z.quot (sampleRate * beatMs) 1000
  <= hit_offset (i + 1) sampleRate beatMs
  <= hit_offset i sampleRate beatMs + Z.quot (sampleRate * beatMs) 1000 + 1.
Proof.
  intros Hi Hsr Hbm. unfold hit_offset.
  replace ((i + 1) * sampleRate * beatMs)
    with (i * sampleRate * beatMs + sampleRate * beatMs) by ring.
  split; [apply quot_1000_add_ge | apply quot_1000_add_le]; nia.
Qed.

Lemma add_drum_full drum start j out :
  len out <= add start j -> add_drum drum start j out = Ok out.
Proof.
  funelim (add_drum drum start j out); intros Hfull;
    first [reflexivity | lia].
Qed.

Lemma place_hits_no_hit sampleRate beatMs drum pattern i out :
  1 ∉ pattern -> place_hits sampleRate beatMs drum pattern i out = Ok out.
Proof.
  revert i. induction pattern as [|v rest IH]; intros i Hno; [reflexivity|].
  apply not_elem_of_cons in Hno as [Hv Hrest]. cbn [place_hits].
  destruct (v =? 1) eqn:E; [apply Z.eqb_eq in E; congruence|].
  cbn [bind]. apply IH, Hrest.
Qed.

Lemma place_hits_empty_buffer sampleRate drum pattern i :
  place_hits sampleRate 0 drum pattern i [] = Ok [].
Proof.
  revert i. induction pattern as [|v rest IH]; intros i; [reflexivity|].
  cbn [place_hits]. destruct (v =? 1); cbn [bind]; [|apply IH].
  unfold hit_start, mul. rewrite Z.mul_0_r. cbn [bind].
  change (quot (wrap 0) 1000) with (Ok (A := Z) 0). cbn [bind].
  rewrite add_drum_full by (vm_compute; discriminate). cbn [bind]. apply IH.
Qed.

Lemma bursts_sum_before sampleRate beatMs drum pattern i n :
  0 <= sampleRate -> 0 <= beatMs -> 0 <= i ->
  n < hit_offset i sampleRate beatMs ->
  bursts_sum sampleRate beatMs drum pattern i n = 0.
Proof.
  intros Hsr Hbm. revert i.
  induction pattern as [|v rest IH]; intros i Hi Hn; [reflexivity|].
  cbn [bursts_sum]. rewrite IH.
  - fold (hit_offset i sampleRate beatMs). unfold burst_at.
    rewrite (proj2 (Z.leb_gt _ _)) by lia. cbn [andb].
    destruct (v =? 1); reflexivity.
  - lia.
  - pose proof (hit_offset_mono i (i + 1) sampleRate beatMs Hsr Hbm). lia.
Qed.

Lemma burst_at_outside drum start n :
  ~ (start <= n < start + len drum) -> burst_at drum start n = 0.
Proof.
  intros Hout. unfold burst_at.
  destruct (start <=? n) eqn:E1; [|reflexivity].
  destruct (n <? start + len drum) eqn:E2; [|reflexivity].
  apply Z.leb_le in E1. apply Z.ltb_lt in E2. lia.
Qed.

Lemma burst_at_inside drum start n :
  start <= n < start + len drum -> burst_at drum start n = get drum (n - start).
Proof.
  intros Hin. unfold burst_at.
  rewrite (proj2 (Z.leb_le _ _)), (proj2 (Z.ltb_lt _ _)) by lia. reflexivity.
Qed.

Lemma bursts_sum_outside sampleRate beatMs drum pattern i n :
  (forall k : nat, pattern !! k = Some 1 ->
     ~ (hit_offset (i + Z.of_nat k) sampleRate beatMs <= n
        < hit_offset (i + Z.of_nat k) sampleRate beatMs + len drum)) ->
  bursts_sum sampleRate beatMs drum pattern i n = 0.
Proof.
  revert i. induction pattern as [|v rest IH]; intros i Hout; [reflexivity|].
  cbn [bursts_sum]. rewrite IH.
  - destruct (v =? 1) eqn:E; [|reflexivity]. apply Z.eqb_eq in E. subst v.
    fold (hit_offset i sampleRate beatMs). rewrite burst_at_outside; [lia|].
    specialize (Hout 0%nat eq_refl). rewrite Z.add_0_r in Hout. exact Hout.
  - intros k Hk. specialize (Hout (S k) Hk).
    replace (i + 1 + Z.of_nat k) with (i + Z.of_nat (S k)) by lia.
    exact Hout.
Qed.

(** When the burst is no longer than the gap between two hit offsets,
    a position inside the window of one hit receives that burst only. *)
Lemma bursts_sum_inside sampleRate beatMs drum pattern i n (k : nat) :
  0 <= sampleRate -> 0 <= beatMs -> 0 <= i ->
  len drum <= Z.quot (sampleRate * beatMs) 1000 ->
  pattern !! k = Some 1 ->
  hit_offset (i + Z.of_nat k) sampleRate beatMs <= n
  < hit_offset (i + Z.of_nat k) sampleRate beatMs + len drum ->
  bursts_sum sampleRate beatMs drum pattern i n
  = get drum (n - hit_offset (i + Z.of_nat k) sampleRate beatMs).
Proof.
  intros Hsr Hbm Hi Hfit. revert i k Hi.
  induction pattern as [|v rest IH]; intros i k Hi Hk Hn.
  - rewrite lookup_nil in Hk. discriminate Hk.
  - cbn [bursts_sum]. fold (hit_offset i sampleRate beatMs).
    pose proof (hit_offset_succ i sampleRate beatMs Hi Hsr Hbm) as Hsucc.
    destruct k as [|k].
    + cbn in Hk. injection Hk as ->. rewrite Z.add_0_r in Hn |- *.
      cbn [Z.eqb Pos.eqb]. rewrite burst_at_inside by exact Hn.
      rewrite bursts_sum_before by lia. lia.
    + cbn in Hk.
      pose proof (hit_offset_mono (i + 1) (i + Z.of_nat (S k))
                    sampleRate beatMs Hsr Hbm) as Hmono.
      rewrite (IH (i + 1) k) by
        (first [lia | exact Hk
               | replace (i + 1 + Z.of_nat k) with (i + Z.of_nat (S k)) by lia;
                 exact Hn]).
      replace (i + 1 + Z.of_nat k) with (i + Z.of_nat (S k)) by lia.
      destruct (v =? 1); [|reflexivity].
      rewrite burst_at_outside by lia. reflexivity.
Qed.

Lemma total_is_hit_offset sampleRate steps beatMs :
  Z.quot (sampleRate * steps * beatMs) 1000 = hit_offset steps sampleRate beatMs.
Proof. unfold hit_offset. f_equal. ring. Qed.

(** Bursts no longer than [sampleRate * beatMs / 1000] never overlap:
    every hit window lies inside the buffer and holds the burst as it
    is; everything outside the hit windows is zero. *)
Lemma render_disjoint (sampleRate bpm steps : Z) pattern drum :
  1 <= sampleRate -> 1 <= bpm -> 0 <= steps -> len pattern = steps ->
  sampleRate * steps * Z.quot 60000 bpm <= max_int ->
  Forall is_int drum ->
  len drum <= spec_samplesPerBeat sampleRate bpm ->
  exists out,
    render sampleRate bpm steps pattern drum = Ok out
    /\ (forall (k : nat) j,
          pattern !! k = Some 1 -> 0 <= j < len drum ->
          hit_offset (Z.of_nat k) sampleRate (Z.quot 60000 bpm) + j < len out
          /\ get out (hit_offset (Z.of_nat k) sampleRate (Z.quot 60000 bpm) + j)
             = get drum j)
    /\ (forall n, 0 <= n < len out ->
          (forall k : nat, pattern !! k = Some 1 ->
             ~ (hit_offset (Z.of_nat k) sampleRate (Z.quot 60000 bpm) <= n
                < hit_offset (Z.of_nat k) sampleRate (Z.quot 60000 bpm)
                  + len drum)) ->
          get out n = 0).
Proof.
  intros Hsr Hbpm Hsteps Hlen Htot Hdrum Hfit.
  pose proof (beatMs_bounds bpm Hbpm) as Hbm.
  unfold spec_samplesPerBeat in Hfit.
  set (beatMs := Z.quot 60000 bpm) in *.
  destruct (render_spec sampleRate bpm steps pattern drum)
    as (out & Hrun & Hout & Hget); try assumption.
  { rewrite Hlen. lia. }
  fold beatMs in Hout, Hget. rewrite total_is_hit_offset in Hout.
  exists out. split; [exact Hrun|]. split.
  - intros k j Hk Hj.
    pose proof (lookup_lt_Some _ _ _ Hk) as Hkl.
    assert (Hks : Z.of_nat k + 1 <= steps) by (unfold len in Hlen; lia).
    pose proof (hit_offset_succ (Z.of_nat k) sampleRate beatMs) as Hsucc.
    pose proof (hit_offset_mono (Z.of_nat k + 1) steps sampleRate beatMs)
      as Hmono.
    pose proof (hit_offset_nonneg (Z.of_nat k) sampleRate beatMs) as Hnn.
    assert (Hin : 0 <= hit_offset (Z.of_nat k) sampleRate beatMs + j < len out)
      by lia.
    split; [lia|]. rewrite (Hget _ Hin).
    rewrite (bursts_sum_inside sampleRate beatMs drum pattern 0 _ k)
      by (first [lia | exact Hk | rewrite Z.add_0_l; lia]).
    rewrite Z.add_0_l, wrap_small by (apply get_is_int, Hdrum).
    f_equal. lia.
  - intros n Hn Hno. rewrite (Hget n Hn), bursts_sum_outside.
    + reflexivity.
    + intros k Hk. rewrite Z.add_0_l. apply Hno, Hk.
Qed.

End MixingShape.

(** X12: a tempo beyond 60000 beats per minute (in either sign) makes
    [beatMs] zero: [render] then returns the empty buffer, whatever the
    sample rate, the steps, the pattern and the burst are, and never
    panics. *)
Theorem render_tempo_beyond_60000
        (sampleRate bpm steps : Z) (pattern drum : list Z) :
  60000 < bpm \/ bpm < -60000 ->
  render sampleRate bpm steps pattern drum = Ok [].
Proof.
  intros Hbpm. unfold render, GoInt.quot at 1.
  destruct (bpm =? 0) eqn:E; [apply Z.eqb_eq in E; lia|].
  assert (Hq : Z.quot 60000 bpm = 0).
  { destruct Hbpm as [Hbig | Hneg].
    - apply Z.quot_small. lia.
    - replace bpm with (- (- bpm)) by lia.
      rewrite Z.quot_opp_r, Z.quot_small by lia. reflexivity. }
  rewrite Hq. change (GoInt.wrap 0) with 0. cbn [bind].
  unfold GoInt.mul at 1. rewrite Z.mul_0_r.
  change (GoInt.quot (GoInt.wrap 0) 1000) with (Ok (A := Z) 0).
  cbn [bind]. change (make_ints 0) with (Ok (A := list Z) []). cbn [bind].
  apply place_hits_empty_buffer.
Qed.

Lemma render_tempo_beyond_60000_witness :
  render 44100 60001 16 [1; 0; 1; 0] [5; 6; 7] = Ok [].
Proof. apply (render_tempo_beyond_60000 44100 60001 16). left. lia. Defined.

(** X13: [generateRhythm] never returns a buffer for a tempo in
    [-60000 .. 0] (with [Steps >= 1] and [44100 * Steps * 60000] within
    the [int] range): a zero tempo panics with a division by zero before
    the pattern is even generated, a negative tempo makes the buffer
    length negative and [make] panics. *)
Theorem generateRhythm_nonpositive_tempo
        (Steps Pulses BPM : Z) (drum : list Z) :
  1 <= Steps -> -60000 <= BPM <= 0 ->
  44100 * Steps * 60000 <= GoInt.max_int ->
  generateRhythm Steps Pulses BPM drum
  = Panicked (if BPM =? 0 then DivideByZero else MakesliceLen).
Proof.
  intros Hs Hb Hfit. unfold generateRhythm, render.
  destruct (BPM =? 0) eqn:E.
  { apply Z.eqb_eq in E. subst BPM. reflexivity. }
  apply Z.eqb_neq in E.
  assert (Hq : -60000 <= Z.quot 60000 BPM <= -1).
  { replace BPM with (- (- BPM)) by lia. rewrite Z.quot_opp_r by lia.
    pose proof (Z.quot_str_pos 60000 (- BPM)).
    pose proof (Z.quot_le_upper_bound 60000 (- BPM) 60000). lia. }
  assert (Hbeat : GoInt.quot 60000 BPM = Ok (Z.quot 60000 BPM)).
  { unfold GoInt.quot. rewrite (proj2 (Z.eqb_neq BPM 0) E).
    f_equal. apply wrap_small. int_range. }
  rewrite Hbeat. cbn [bind].
  rewrite bjorklund_shape by lia. cbn [bind].
  set (beatMs := Z.quot 60000 BPM) in *.
  assert (Hprod : - (44100 * Steps * 60000) <= 44100 * Steps * beatMs
                  <= -44100) by nia.
  rewrite mul3_small by int_range.
  unfold GoInt.quot. cbn [Z.eqb].
  assert (Hneg : Z.quot (44100 * Steps * beatMs) 1000 <= -44).
  { replace (44100 * Steps * beatMs)
      with (- (- (44100 * Steps * beatMs))) by lia.
    rewrite Z.quot_opp_l by lia.
    pose proof (Z.quot_le_lower_bound
                  (- (44100 * Steps * beatMs)) 1000 44). lia. }
  assert (Hlow : - (44100 * Steps * 60000)
                 <= Z.quot (44100 * Steps * beatMs) 1000).
  { replace (44100 * Steps * beatMs)
      with (- (- (44100 * Steps * beatMs))) by lia.
    rewrite Z.quot_opp_l by lia.
    pose proof (Z.quot_le_upper_bound
                  (- (44100 * Steps * beatMs)) 1000
                  (44100 * Steps * 60000)). lia. }
  rewrite wrap_small by int_range. cbn [bind]. unfold make_ints.
  rewrite (proj2 (Z.ltb_lt _ 0)) by lia. reflexivity.
Qed.

Lemma generateRhythm_nonpositive_tempo_witness :
  generateRhythm 8 3 (-120) [1; 2; 3]
  = Panicked (if -120 =? 0 then DivideByZero else MakesliceLen).
Proof.
  apply (generateRhythm_nonpositive_tempo 8 3 (-120));
    first [lia | vm_compute; discriminate].
Defined.

(** X14: a pattern without an entry equal to 1 renders to silence: the
    zero-filled buffer of full length, whatever the burst is.  Entries
    other than 1 count as rests. *)
Theorem render_no_hits_silence
        (sampleRate bpm steps : Z) (pattern drum : list Z) :
  1 ∉ pattern ->
  1 <= sampleRate -> 1 <= bpm -> 0 <= steps ->
  sampleRate * steps * Z.quot 60000 bpm <= GoInt.max_int ->
  render sampleRate bpm steps pattern drum
  = Ok (replicate
          (Z.to_nat (Z.quot (sampleRate * steps * Z.quot 60000 bpm) 1000)) 0).
Proof.
  intros Hno Hsr Hbpm Hsteps Htot. unfold render.
  rewrite beatMs_ok by exact Hbpm. cbn [bind].
  pose proof (beatMs_bounds bpm Hbpm) as Hbm.
  set (beatMs := Z.quot 60000 bpm) in *.
  assert (Hp : 0 <= sampleRate * steps * beatMs) by nia.
  rewrite mul3_small by int_range.
  rewrite quot_1000_small by lia. cbn [bind].
  rewrite make_ints_ok by (apply Z.quot_pos; lia). cbn [bind].
  apply place_hits_no_hit, Hno.
Qed.

Lemma render_no_hits_silence_witness :
  render 10 120 2 [0; 2] [7; 8; 9]
  = Ok (replicate (Z.to_nat (Z.quot (10 * 2 * Z.quot 60000 120) 1000)) 0).
Proof.
  apply (render_no_hits_silence 10 120 2 [0; 2] [7; 8; 9]);
    try first [lia | vm_compute; discriminate].
  intros Hin. apply elem_of_cons in Hin as [Habs | Hin]; [discriminate Habs|].
  apply elem_of_cons in Hin as [Habs | Hin]; [discriminate Habs|].
  inversion Hin.
Defined.

(** X15: when the burst is no longer than [samplesPerBeat] (and the
    products fit in an [int]), bursts never overlap and are never
    clipped: the window of every hit lies inside the buffer and holds
    the burst sample for sample, and every position outside the hit
    windows is zero. *)
Theorem render_disjoint_bursts
        (sampleRate bpm steps : Z) (pattern drum : list Z) :
  1 <= sampleRate -> 1 <= bpm -> 0 <= steps -> len pattern = steps ->
  sampleRate * steps * Z.quot 60000 bpm <= GoInt.max_int ->
  Forall GoInt.is_int drum ->
  len drum <= spec_samplesPerBeat sampleRate bpm ->
  exists out,
    render sampleRate bpm steps pattern drum = Ok out
    /\ (forall (k : nat) (j : Z),
          pattern !! k = Some 1 -> 0 <= j < len drum ->
          hit_offset (Z.of_nat k) sampleRate (Z.quot 60000 bpm) + j < len out
          /\ get out (hit_offset (Z.of_nat k) sampleRate (Z.quot 60000 bpm) + j)
             = get drum j)
    /\ (forall n, 0 <= n < len out ->
          (forall k : nat, pattern !! k = Some 1 ->
             ~ (hit_offset (Z.of_nat k) sampleRate (Z.quot 60000 bpm) <= n
                < hit_offset (Z.of_nat k) sampleRate (Z.quot 60000 bpm)
                  + len drum)) ->
          get out n = 0).
Proof. apply render_disjoint. Qed.

Lemma render_disjoint_bursts_witness :
  exists out,
    render 10 120 4 [1; 0; 1; 0] [1; 2; 3] = Ok out
    /\ (forall (k : nat) (j : Z),
          [1; 0; 1; 0] !! k = Some 1 -> 0 <= j < len [1; 2; 3] ->
          hit_offset (Z.of_nat k) 10 (Z.quot 60000 120) + j < len out
          /\ get out (hit_offset (Z.of_nat k) 10 (Z.quot 60000 120) + j)
             = get [1; 2; 3] j)
    /\ (forall n, 0 <= n < len out ->
          (forall k : nat, [1; 0; 1; 0] !! k = Some 1 ->
             ~ (hit_offset (Z.of_nat k) 10 (Z.quot 60000 120) <= n
                < hit_offset (Z.of_nat k) 10 (Z.quot 60000 120)
                  + len [1; 2; 3])) ->
          get out n = 0).
Proof.
  apply (render_disjoint_bursts 10 120 4 [1; 0; 1; 0] [1; 2; 3]).
  - lia.
  - lia.
  - lia.
  - reflexivity.
  - vm_compute. discriminate.
  - repeat constructor; vm_compute; discriminate.
  - vm_compute. discriminate.
Defined.

(** X16: a burst that would overrun the end of the buffer is cut at the
    end and nowhere else.  For a pattern whose only hit is at step [k]
    (products within the [int] range), every burst sample that falls
    inside the buffer is there unchanged, from the first one on, and the
    rest of the buffer is zero. *)
Theorem render_single_hit_clipped
        (sampleRate bpm steps : Z) (pattern drum : list Z) (k : nat) :
  1 <= sampleRate -> 1 <= bpm -> 0 <= steps -> len pattern = steps ->
  sampleRate * steps * Z.quot 60000 bpm <= GoInt.max_int ->
  single_hit pattern k ->
  Forall GoInt.is_int drum ->
  exists out,
    render sampleRate bpm steps pattern drum = Ok out
    /\ (forall j, 0 <= j < len drum ->
          hit_offset (Z.of_nat k) sampleRate (Z.quot 60000 bpm) + j < len out ->
          get out (hit_offset (Z.of_nat k) sampleRate (Z.quot 60000 bpm) + j)
          = get drum j)
    /\ (forall n, 0 <= n < len out ->
          ~ (hit_offset (Z.of_nat k) sampleRate (Z.quot 60000 bpm) <= n
             < hit_offset (Z.of_nat k) sampleRate (Z.quot 60000 bpm)
               + len drum) ->
          get out n = 0).
Proof.
  intros Hsr Hbpm Hsteps Hlen Htot Hsingle Hdrum.
  pose proof (beatMs_bounds bpm Hbpm) as Hbm.
  pose proof (hit_offset_nonneg (Z.of_nat k) sampleRate (Z.quot 60000 bpm))
    as Hnn.
  destruct (render_spec sampleRate bpm steps pattern drum)
    as (out & Hrun & _ & Hget); try assumption.
  { rewrite Hlen. lia. }
  assert (Hval : forall n, 0 <= n < len out ->
            get out n
            = burst_at drum
                (hit_offset (Z.of_nat k) sampleRate (Z.quot 60000 bpm)) n).
  { intros n Hn. rewrite (Hget n Hn).
    rewrite (bursts_sum_single _ _ _ _ k 0 n Hsingle), Z.add_0_l.
    apply wrap_small, burst_at_is_int, Hdrum. }
  exists out. split; [exact Hrun|]. split.
  - intros j Hj Hin. rewrite Hval by lia.
    rewrite burst_at_inside by lia. f_equal. lia.
  - intros n Hn Hout. rewrite (Hval n Hn). apply burst_at_outside, Hout.
Qed.

Lemma render_single_hit_clipped_witness :
  exists out,
    render 10 120 2 [0; 1] [1; 2; 3; 4; 5; 6; 7] = Ok out
    /\ (forall j, 0 <= j < len [1; 2; 3; 4; 5; 6; 7] ->
          hit_offset (Z.of_nat 1) 10 (Z.quot 60000 120) + j < len out ->
          get out (hit_offset (Z.of_nat 1) 10 (Z.quot 60000 120) + j)
          = get [1; 2; 3; 4; 5; 6; 7] j)
    /\ (forall n, 0 <= n < len out ->
          ~ (hit_offset (Z.of_nat 1) 10 (Z.quot 60000 120) <= n
             < hit_offset (Z.of_nat 1) 10 (Z.quot 60000 120)
               + len [1; 2; 3; 4; 5; 6; 7]) ->
          get out n = 0).
Proof.
  apply (render_single_hit_clipped 10 120 2 [0; 1] [1; 2; 3; 4; 5; 6; 7] 1).
  - lia.
  - lia.
  - lia.
  - reflexivity.
  - vm_compute. discriminate.
  - split; [reflexivity|].
    intros [|[|i]] Hi; cbn; try congruence. destruct i; discriminate.
  - repeat constructor; vm_compute; discriminate.
Defined.

(** X17: the drift of a hit against a whole number of beats.  With
    [q = sampleRate * beatMs / 1000] and [r] the remainder of that
    division, the hit at index [i] is placed at
    [i * q + (i * r) / 1000], which is never before [i * q] and at most
    [i] samples after it. *)
Theorem hit_start_drift (i sampleRate beatMs : Z) :
  0 <= i -> 0 <= sampleRate -> 0 <= beatMs ->
  i * sampleRate * beatMs <= GoInt.max_int ->
  exists start,
    hit_start i sampleRate beatMs = Ok start
    /\ start = i * Z.quot (sampleRate * beatMs) 1000
               + Z.quot (i * Z.rem (sampleRate * beatMs) 1000) 1000
    /\ i * Z.quot (sampleRate * beatMs) 1000 <= start
       <= i * Z.quot (sampleRate * beatMs) 1000 + i.
Proof.
  intros Hi Hsr Hbm Hfit.
  assert (Hp : 0 <= sampleRate * beatMs) by nia.
  assert (Hip : 0 <= i * sampleRate * beatMs) by nia.
  exists (Z.quot (i * sampleRate * beatMs) 1000).
  split; [apply hit_start_ok; lia|].
  set (p := sampleRate * beatMs) in *.
  pose proof (Z.quot_rem' p 1000) as Hqr.
  pose proof (Z.rem_bound_pos p 1000 Hp ltac:(lia)) as Hr.
  assert (Hq : 0 <= Z.quot p 1000) by (apply Z.quot_pos; lia).
  set (q := Z.quot p 1000) in *. set (r := Z.rem p 1000) in *.
  assert (Hir : 0 <= i * r <= i * 1000) by nia.
  assert (Hsplit : Z.quot (i * sampleRate * beatMs) 1000
                   = i * q + Z.quot (i * r) 1000).
  { replace (i * sampleRate * beatMs) with (i * q * 1000 + i * r)
      by (subst p; nia).
    rewrite !Z.quot_div_nonneg by nia.
    rewrite Z.div_add_l by lia. reflexivity. }
  split; [exact Hsplit|]. rewrite Hsplit.
  pose proof (Z.quot_pos (i * r) 1000).
  pose proof (Z.quot_le_upper_bound (i * r) 1000 i). lia.
Qed.

Lemma hit_start_drift_witness :
  exists start,
    hit_start 10 44100 545 = Ok start
    /\ start = 10 * Z.quot (44100 * 545) 1000
               + Z.quot (10 * Z.rem (44100 * 545) 1000) 1000
    /\ 10 * Z.quot (44100 * 545) 1000 <= start
       <= 10 * Z.quot (44100 * 545) 1000 + 10.
Proof.
  apply (hit_start_drift 10 44100 545).
  - lia.
  - lia.
  - lia.
  - vm_compute. discriminate.
Defined.

(** X18: consecutive hit offsets are [q] or [q + 1] samples apart, where
    [q = sampleRate * beatMs / 1000]; in particular the offsets never
    decrease with the step index. *)
Theorem hit_start_spacing (i sampleRate beatMs : Z) :
  0 <= i -> 0 <= sampleRate -> 0 <= beatMs ->
  (i + 1) * sampleRate * beatMs <= GoInt.max_int ->
  exists start next,
    hit_start i sampleRate beatMs = Ok start
    /\ hit_start (i + 1) sampleRate beatMs = Ok next
    /\ Z.quot (sampleRate * beatMs) 1000 <= next - start
       <= Z.quot (sampleRate * beatMs) 1000 + 1.
Proof.
  intros Hi Hsr Hbm Hfit.
  assert (Hp : 0 <= sampleRate * beatMs) by nia.
  assert (H0 : 0 <= i * sampleRate * beatMs) by nia.
  assert (H1 : i * sampleRate * beatMs <= (i + 1) * sampleRate * beatMs)
    by nia.
  exists (hit_offset i sampleRate beatMs),
         (hit_offset (i + 1) sampleRate beatMs).
  split; [apply hit_start_ok; lia|].
  split; [apply hit_start_ok; lia|].
  pose proof (hit_offset_succ i sampleRate beatMs Hi Hsr Hbm). lia.
Qed.

Lemma hit_start_spacing_witness :
  exists start next,
    hit_start 2 44100 545 = Ok start
    /\ hit_start (2 + 1) 44100 545 = Ok next
    /\ Z.quot (44100 * 545) 1000 <= next - start
       <= Z.quot (44100 * 545) 1000 + 1.
Proof.
  apply (hit_start_spacing 2 44100 545).
  - lia.
  - lia.
  - lia.
  - vm_compute. discriminate.
Defined.

(** X19: [generateRhythm] end to end.  For [Steps >= 0], any [Pulses], a
    tempo [BPM >= 1] and [44100 * Steps * beatMs] within the [int] range,
    it returns a buffer of [44100 * Steps * beatMs / 1000] samples, each
    the (wrapped) sum of the bursts laid at the hits of the pattern that
    [bjorklund] returned. *)
Theorem generateRhythm_buffer (Steps Pulses BPM : Z) (drum : list Z) :
  0 <= Steps -> 1 <= BPM ->
  44100 * Steps * Z.quot 60000 BPM <= GoInt.max_int ->
  exists pattern out,
    bjorklund Steps Pulses = Ok pattern
    /\ generateRhythm Steps Pulses BPM drum = Ok out
    /\ len out = Z.quot (44100 * Steps * Z.quot 60000 BPM) 1000
    /\ forall n, 0 <= n < len out ->
         get out n
         = GoInt.wrap (bursts_sum 44100 (Z.quot 60000 BPM) drum pattern 0 n).
Proof.
  intros Hs Hb Hfit. exists (paired_pattern Steps Pulses).
  unfold generateRhythm. rewrite beatMs_ok by exact Hb. cbn [bind].
  rewrite bjorklund_shape by exact Hs. cbn [bind].
  destruct (paired_pattern_counts Steps Pulses Hs) as [Hlen _].
  destruct (render_spec 44100 BPM Steps (paired_pattern Steps Pulses) drum)
    as (out & Hrun & Hout & Hget); try lia.
  exists out. split; [reflexivity|]. split; [exact Hrun|].
  split; [exact Hout | exact Hget].
Qed.

Lemma generateRhythm_buffer_witness :
  exists pattern out,
    bjorklund 8 3 = Ok pattern
    /\ generateRhythm 8 3 120 [1; 2; 3] = Ok out
    /\ len out = Z.quot (44100 * 8 * Z.quot 60000 120) 1000
    /\ forall n, 0 <= n < len out ->
         get out n
         = GoInt.wrap (bursts_sum 44100 (Z.quot 60000 120) [1; 2; 3] pattern 0 n).
Proof.
  apply (generateRhythm_buffer 8 3 120 [1; 2; 3]).
  - lia.
  - lia.
  - vm_compute. discriminate.
Defined.


